(** * agentx: the fluent HTML builder and the design-system composition engine

    A shallow embedding of [lib/universal/fluent-html.ts] (the HTML AST, the
    flattening of children, attribute serialization, the minimized and the
    pretty renderer, the raw-HTML policy), of the starter design system of
    [lib/universal/fluent-ds-starter.ts] and of the head merge of
    [lib/natural-html/design-system/natural.ts], with the properties the
    specification states about them.

    Conventions of the embedding:
    - a JavaScript string is a [string]: a sequence of code units, here the
      code units below 256; the default order of [Array.prototype.sort] is the
      lexicographic order on code units, [String.compare];
    - a JavaScript number is kept abstract (class [JsNumber]): the builder only
      ever passes numbers to [String(...)];
    - an object used as a record of properties is an association list of its
      own enumerable properties in insertion order;
    - a function that throws returns [Throw e], one that returns gives [Ok v];
    - module state (the raw policy) is passed explicitly. *)

From Stdlib Require Import String Ascii List Bool Arith Lia ZArith.
From Stdlib Require Import Sorting.Sorted Sorting.Permutation Sorting.Mergesort.
From Stdlib Require Import Structures.Orders Structures.OrderedTypeEx.
From Stdlib Require Import Numbers.DecimalString.
Import ListNotations.

Local Open Scope list_scope.
Local Open Scope string_scope.

(** ** JavaScript strings *)

Definition dq : string := String "034"%char EmptyString.
Definition nl : string := String "010"%char EmptyString.
Definition cr : string := String "013"%char EmptyString.

(** [xs.join(sep)] *)
Definition join (sep : string) (xs : list string) : string := String.concat sep xs.

(** [s.startsWith(p)] *)
Fixpoint startsWith (p s : string) : bool :=
  match p, s with
  | EmptyString, _ => true
  | String a p', String b s' => Ascii.eqb a b && startsWith p' s'
  | String _ _, EmptyString => false
  end.

(** The scan of [s.replaceAll(pat, rep)] for a non-empty pattern: [skip] counts
    the code units of a match that are still to be passed over. *)
Fixpoint replaceFrom (pat rep : string) (skip : nat) (s : string) : string :=
  match s with
  | EmptyString => EmptyString
  | String a s' =>
      match skip with
      | S k => replaceFrom pat rep k s'
      | O =>
          if startsWith pat s
          then rep ++ replaceFrom pat rep (String.length pat - 1) s'
          else String a (replaceFrom pat rep 0 s')
      end
  end.

(** [s.replaceAll(pat, rep)]; with the empty pattern [rep] goes before every
    code unit and at the end. *)
Definition replaceAll (pat rep s : string) : string :=
  match pat with
  | EmptyString =>
      (fix between (t : string) : string :=
         match t with
         | EmptyString => rep
         | String a t' => rep ++ String a (between t')
         end) s
  | String _ _ => replaceFrom pat rep 0 s
  end.

(** [s.split(sep)] for a separator of one code unit. *)
Fixpoint split (sep : ascii) (s : string) : list string :=
  match s with
  | EmptyString => [EmptyString]
  | String a s' =>
      let rest := split sep s' in
      if Ascii.eqb a sep then EmptyString :: rest
      else match rest with
           | h :: t => String a h :: t
           | [] => [String a EmptyString]
           end
  end.

(** [s.includes(c)] for one code unit. *)
Fixpoint includes (c : ascii) (s : string) : bool :=
  match s with
  | EmptyString => false
  | String a s' => Ascii.eqb a c || includes c s'
  end.

(** White space of [String.prototype.trim] among the code units below 256:
    TAB, LF, VT, FF, CR, SP and NBSP. *)
Definition isWhiteSpace (a : ascii) : bool :=
  let n := nat_of_ascii a in
  (((9 <=? n) && (n <=? 13)) || (n =? 32) || (n =? 160))%nat.

Fixpoint trimStart (s : string) : string :=
  match s with
  | EmptyString => EmptyString
  | String a s' => if isWhiteSpace a then trimStart s' else s
  end.

Fixpoint trimEnd (s : string) : string :=
  match s with
  | EmptyString => EmptyString
  | String a s' =>
      match trimEnd s' with
      | EmptyString => if isWhiteSpace a then EmptyString else String a EmptyString
      | t => String a t
      end
  end.

(** [s.trim()] *)
Definition trim (s : string) : string := trimEnd (trimStart s).

(** [s.repeat(n)] *)
Fixpoint repeat (s : string) (n : nat) : string :=
  match n with
  | O => EmptyString
  | S k => s ++ repeat s k
  end.

(** [toLowerCase] on one code unit below 256: A-Z, and the capital letters of
    Latin-1 (0xC0-0xDE but the multiplication sign 0xD7). *)
Definition lowerChar (a : ascii) : ascii :=
  let n := nat_of_ascii a in
  if (((65 <=? n) && (n <=? 90))
      || ((192 <=? n) && (n <=? 222) && negb (n =? 215)))%nat
  then ascii_of_nat (n + 32) else a.

(** [s.toLowerCase()] *)
Fixpoint toLowerCase (s : string) : string :=
  match s with
  | EmptyString => EmptyString
  | String a s' => String (lowerChar a) (toLowerCase s')
  end.

(** ** Values *)

(** JavaScript numbers: the builder only converts them with [String(n)]. *)
Class JsNumber : Type := {
  number : Type;
  numberToString : number -> string
}.

(** What is thrown: [new Error(message)] in the modules under [lib/], or one
    of the conditions of the design-system runtime (the specification's error
    taxonomy), each with the names it reports. *)
Inductive JsError : Type :=
| Error (message : string)
| MissingRequiredSlot (slotName ownerName : string)
| UnknownSlot (slotName ownerName : string)
| UnknownRegion (name : string)
| UnknownLayout (name : string)
| DuplicateRegistration (kind name : string).

(** What a call returns ([Ok]) or throws ([Throw]). *)
Inductive result (A : Type) : Type :=
| Ok (value : A)
| Throw (e : JsError).
Arguments Ok {A} value.
Arguments Throw {A} e.

Definition bind {A B : Type} (r : result A) (k : A -> result B) : result B :=
  match r with
  | Ok v => k v
  | Throw e => Throw e
  end.

Notation "x <- r ;; k" := (bind r (fun x => k))
  (at level 61, r at next level, right associativity).

(** [mapM]: the calls of a loop in order, stopping at the first throw. *)
Fixpoint mapResult {A B : Type} (f : A -> result B) (xs : list A) : result (list B) :=
  match xs with
  | [] => Ok []
  | x :: xs' => y <- f x ;; ys <- mapResult f xs' ;; Ok (y :: ys)
  end.

(** The default order of [Array.prototype.sort]: strings by code units. *)
Module StringOrder <: TotalLeBool.

Definition t : Type := string.

Definition leb : t -> t -> bool := String.leb.

Theorem leb_total : forall a1 a2, leb a1 a2 = true \/ leb a2 a1 = true.
Proof. exact String.leb_total. Qed.

End StringOrder.

Module StringSort := Sort StringOrder.

Set Warnings "-register-all".

(** ** fluent-html.ts: the data model *)

Section FluentHtml.
Context `{JsNumber}.

(** [AttrValue = string | number | boolean | null | undefined] *)
Inductive AttrValue : Type :=
| VString (s : string)
| VNumber (n : number)
| VBoolean (b : bool)
| VNull
| VUndefined.

(** [Attrs = Record<string, AttrValue>]: the own properties, in insertion
    order. *)
Definition Attrs : Type := list (string * AttrValue).

(** [String(v)] on an attribute value. *)
Definition toStr (v : AttrValue) : string :=
  match v with
  | VString s => s
  | VNumber n => numberToString n
  | VBoolean true => "true"
  | VBoolean false => "false"
  | VNull => "null"
  | VUndefined => "undefined"
  end.

(** [HtmlAst]; the optional fields of an element are options. *)
Inductive HtmlAst : Type :=
| Fragment (children : list HtmlAst)
| Element (tag : string)
          (attrs : option (list (string * AttrValue)))
          (children : option (list HtmlAst))
          (void : option bool)
| Text (text : string)
| Raw (html : string)
| Comment (text : string)
| Doctype.

(** [RawHtml = { __rawHtml: string; __ast?: HtmlAst }] *)
Record RawHtml : Type := mkRawHtml {
  __rawHtml : string;
  __ast : option HtmlAst
}.

(** [Child]. A builder callback [(e: ChildAdder) => void] is represented by
    what it does with its argument: the calls [e(...xs)] it makes, in order,
    each with its list of arguments. *)
Inductive Child : Type :=
| CString (s : string)
| CNumber (n : number)
| CBoolean (b : bool)
| CNull
| CUndefined
| CRawHtml (r : RawHtml)
| CDomNodeLike (nodeType : number)
| CArray (xs : list Child)
| CBuilder (calls : list (list Child)).

(** An item of the flattened list: [string | RawHtml | DomNodeLike]. *)
Inductive FlatChild : Type :=
| FString (s : string)
| FRawHtml (r : RawHtml)
| FDomNodeLike (nodeType : number).

(** ** The raw policy *)

Inductive RawMode : Type := Permissive | DevStrict.

(** [RawPolicy = { mode?: ... }]: the state holds the value of [mode]
    ([None] for [undefined]). *)
Record RawPolicy : Type := mkRawPolicy { mode : option RawMode }.

(** [let rawPolicy: RawPolicy = { mode: "permissive" }] *)
Definition initialRawPolicy : RawPolicy := mkRawPolicy (Some Permissive).

(** The argument of [setRawPolicy]: an object that has no own [mode]
    property, or one whose [mode] is the given value. *)
Inductive RawPolicyArg : Type :=
| NoMode
| WithMode (m : option RawMode).

(** [rawPolicy = { ...rawPolicy, ...policy }] *)
Definition setRawPolicy (rawPolicy : RawPolicy) (policy : RawPolicyArg) : RawPolicy :=
  match policy with
  | NoMode => rawPolicy
  | WithMode m => mkRawPolicy m
  end.

Definition trustedRaw (html : string) (_hint : option string) : RawHtml :=
  mkRawHtml html (Some (Raw html)).

Definition raw (rawPolicy : RawPolicy) (html : string) (hint : option string)
  : result RawHtml :=
  match mode rawPolicy with
  | Some DevStrict =>
      let msg :=
        match hint with
        | Some (String a h) =>
            "raw() is blocked by dev-strict policy: " ++ String a h
        | _ => "raw() is blocked by dev-strict policy"
        end in
      Throw (Error msg)
  | _ => Ok (trustedRaw html hint)
  end.

(** ** Escaping *)

Definition escapeHtml (value : string) : string :=
  replaceAll "'" "&#39;"
    (replaceAll dq "&quot;"
       (replaceAll ">" "&gt;"
          (replaceAll "<" "&lt;"
             (replaceAll "&" "&amp;" value)))).

Definition escapeAttr (value : string) : string := escapeHtml value.

(** ** Flattening of children *)

(** [visit] of [flattenChildren], with the array [out] it pushes to. *)
Fixpoint visit (c : Child) (out : list FlatChild) {struct c} : list FlatChild :=
  match c with
  | CNull | CUndefined | CBoolean false => out
  | CBuilder calls =>
      fold_left (fun o xs => fold_left (fun o' x => visit x o') xs o) calls out
  | CArray xs => fold_left (fun o x => visit x o) xs out
  | CRawHtml r => out ++ [FRawHtml r]
  | CDomNodeLike n => out ++ [FDomNodeLike n]
  | CBoolean true => out
  | CString s => out ++ [FString s]
  | CNumber n => out ++ [FString (numberToString n)]
  end.

Definition flattenChildren (children : list Child) : list FlatChild :=
  fold_left (fun out c => visit c out) children [].

(** ** Attributes *)

(** [Object.keys(a)] *)
Definition objectKeys (a : Attrs) : list string := map fst a.

(** [a[k]]: the value of the own property [k], [undefined] without one. *)
Definition getAttr (a : Attrs) (k : string) : AttrValue :=
  match find (fun kv => String.eqb (fst kv) k) a with
  | Some kv => snd kv
  | None => VUndefined
  end.

(** [keys.sort()] *)
Definition sortKeys (keys : list string) : list string := StringSort.sort keys.


Definition attrsToAst (a : Attrs) : list (string * AttrValue) :=
  fold_left
    (fun out k =>
       match getAttr a k with
       | VNull | VUndefined | VBoolean false => out
       | VBoolean true => (out ++ [(k, VBoolean true)])%list
       | v => (out ++ [(k, v)])%list
       end)
    (sortKeys (objectKeys a)) [].

(** The loop over [attrs] that [renderAstMinimized] and [openTag] share. *)
Definition attrText (attrs : list (string * AttrValue)) : string :=
  fold_left
    (fun text kv =>
       match snd kv with
       | VBoolean true => text ++ " " ++ fst kv
       | v => text ++ " " ++ fst kv ++ "=" ++ dq ++ escapeAttr (toStr v) ++ dq
       end)
    attrs EmptyString.

(** ** From children to AST nodes *)

(** One step of the loop of [childrenToAst]. Its last [throw] (unsupported
    child type) is not reached by any item [flattenChildren] returns. *)
Definition childToAst (c : FlatChild) : result HtmlAst :=
  match c with
  | FString s => Ok (Text s)
  | FRawHtml rh =>
      Ok (match __ast rh with
          | Some a => a
          | None => Raw (__rawHtml rh)
          end)
  | FDomNodeLike _ =>
      Throw (Error "Fluent server error: DomNodeLike not supported here.")
  end.

Definition childrenToAst (children : list Child) : result (list HtmlAst) :=
  mapResult childToAst (flattenChildren children).

(** ** The minimized renderer *)

(** [if (node.void)] *)
Definition isTrue (b : option bool) : bool :=
  match b with
  | Some true => true
  | _ => false
  end.

(** [x ?? []] *)
Definition orEmpty {A : Type} (x : option (list A)) : list A :=
  match x with
  | Some l => l
  | None => []
  end.

Fixpoint renderAstMinimized (node : HtmlAst) : string :=
  match node with
  | Fragment children => join EmptyString (map renderAstMinimized children)
  | Doctype => "<!doctype html>"
  | Comment text => "<!--" ++ escapeHtml text ++ "-->"
  | Raw html => html
  | Text text => escapeHtml text
  | Element tag attrs children void =>
      let attrText := attrText (orEmpty attrs) in
      if isTrue void then "<" ++ tag ++ attrText ++ ">"
      else
        let inner :=
          join EmptyString
            (match children with
             | Some kids => map renderAstMinimized kids
             | None => []
             end) in
        "<" ++ tag ++ attrText ++ ">" ++ inner ++ "</" ++ tag ++ ">"
  end.

(** ** Tag functions *)

Definition VOID_ELEMENTS : list string :=
  ["area"; "base"; "br"; "col"; "embed"; "hr"; "img"; "input"; "link";
   "meta"; "param"; "source"; "track"; "wbr"].

Definition isVoidElement (t : string) : bool :=
  existsb (String.eqb (toLowerCase t)) VOID_ELEMENTS.

(** [el(tag, ...args)]. [at] is [Some a] when [args[0]] is a plain attribute
    object [a] ([isAttrs]), and then [kids] is [args.slice(1)]; otherwise [at]
    is [None] and [kids] is [args]. *)
Definition el (tag : string) (at_ : option Attrs) (kids : list Child)
  : result RawHtml :=
  children <-
    (if isVoidElement tag then Ok None
     else kids' <- childrenToAst kids ;; Ok (Some kids')) ;;
  let ast :=
    Element tag
      (match at_ with Some a => Some (attrsToAst a) | None => None end)
      children
      (if isVoidElement tag then Some true else None) in
  Ok (mkRawHtml (renderAstMinimized ast) (Some ast)).

(** [tag(name)]: the tag function of an element name. *)
Definition tag (name : string) : option Attrs -> list Child -> result RawHtml :=
  fun at_ kids => el name at_ kids.

(** [k in v] for a plain object [v], given by its own properties. *)
Definition hasKey (k : string) (a : Attrs) : bool :=
  existsb (String.eqb k) (objectKeys a).

(** [isAttrs(v)] for a plain object [v] ([isPlainObject(v)] holds), given by
    its own properties. *)
Definition isAttrs (a : Attrs) : bool :=
  if hasKey "__rawHtml" a then false
  else if hasKey "nodeType" a then false
  else true.

(** The first argument of a tag function, [Attrs | Child]: a plain object
    whose values are attribute values, or a child. *)
Inductive FirstArg : Type :=
| ArgObject (a : Attrs)
| ArgChild (c : Child).

(** The child that a plain object is after the cast [args as Child[]], when
    [isAttrs] has refused it. With a key [__rawHtml], [visit] and
    [childrenToAst] take it for a [RawHtml] and read its [__ast] and
    [__rawHtml]; otherwise, with a key [nodeType], for a DOM-like object.
    [None] where the object is no value of [Child]: its [__ast] is neither
    [null] nor [undefined] (an attribute value is no tree), its [__rawHtml] is
    no string, or its [nodeType] is no number. *)
Definition objectAsChild (a : Attrs) : option Child :=
  if hasKey "__rawHtml" a then
    match getAttr a "__ast", getAttr a "__rawHtml" with
    | VNull, VString html => Some (CRawHtml (mkRawHtml html None))
    | VUndefined, VString html => Some (CRawHtml (mkRawHtml html None))
    | _, _ => None
    end
  else
    match getAttr a "nodeType" with
    | VNumber n => Some (CDomNodeLike n)
    | _ => None
    end.

(** [el(tag, ...args)] on the arguments as they are passed, [None] for a call
    without arguments: the test [args.length > 0 && isAttrs(args[0])], and then
    [el] above on [at] and [kids]. The result is [None] where a refused object
    is no value of [Child] (see [objectAsChild]). *)
Definition elArgs (tag : string) (args : option (FirstArg * list Child))
  : option (result RawHtml) :=
  match args with
  | None => Some (el tag None [])
  | Some (ArgChild c, rest) => Some (el tag None (c :: rest))
  | Some (ArgObject a, rest) =>
      if isAttrs a then Some (el tag (Some a) rest)
      else
        match objectAsChild a with
        | Some c => Some (el tag None (c :: rest))
        | None => None
        end
  end.

Definition doctype : RawHtml :=
  let ast := Doctype in mkRawHtml (renderAstMinimized ast) (Some ast).

Definition comment (s : string) : RawHtml :=
  let ast := Comment s in mkRawHtml (renderAstMinimized ast) (Some ast).

(** A part of [render] and [renderPretty]: [string | RawHtml]. *)
Inductive Part : Type :=
| PString (s : string)
| PRawHtml (r : RawHtml).

Definition render (parts : list Part) : string :=
  join EmptyString
    (map (fun p => match p with PString s => s | PRawHtml r => __rawHtml r end)
       parts).

(** ** The pretty renderer *)

Definition indentUnit : string := "  ".

Definition isRawBlockTag (t : string) : bool :=
  let n := toLowerCase t in
  String.eqb n "script" || String.eqb n "style" || String.eqb n "pre"
  || String.eqb n "textarea".

(** [shouldInlineTextOnly(n)] on the fields of an element. *)
Definition shouldInlineTextOnly (void : option bool)
    (children : option (list HtmlAst)) : bool :=
  if isTrue void then true
  else
    match orEmpty children with
    | [] => true
    | [only] =>
        match only with
        | Text text =>
            if includes "010"%char text then false
            else (String.length (trim text) <=? 80)%nat
        | _ => false
        end
    | _ => false
    end.

Definition openTag (tag : string) (attrs : option (list (string * AttrValue)))
  : string :=
  "<" ++ tag ++ attrText (orEmpty attrs) ++ ">".

Definition closeTag (tag : string) : string := "</" ++ tag ++ ">".

(** [lines.push(l)] *)
Definition push (lines : list string) (l : string) : list string :=
  (lines ++ [l])%list.

(** The lines of a raw block: [for (const line of raw.split(NL))
    lines.push(pad + line)], after CR LF became LF. *)
Definition pushRawLines (pad text : string) (lines : list string) : list string :=
  fold_left (fun ls line => push ls (pad ++ line))
    (split "010"%char (replaceAll (cr ++ nl) nl text)) lines.

(** [only.text] of the single child that [shouldInlineTextOnly] accepted (a
    text node). *)
Definition onlyText (kids : list HtmlAst) : string :=
  match kids with
  | Text text :: _ => text
  | _ => EmptyString
  end.

(** [emit(n, depth)], with the array [lines] it pushes to. *)
Fixpoint emit (n : HtmlAst) (depth : nat) (lines : list string) {struct n}
  : list string :=
  let pad := repeat indentUnit depth in
  match n with
  | Fragment children => fold_left (fun ls c => emit c depth ls) children lines
  | Doctype => push lines (pad ++ "<!doctype html>")
  | Comment text => push lines (pad ++ "<!--" ++ escapeHtml text ++ "-->")
  | Raw html => pushRawLines pad html lines
  | Text text => push lines (pad ++ escapeHtml text)
  | Element tag attrs children void =>
      if isTrue void then push lines (pad ++ openTag tag attrs)
      else
        match children with
        | None => push lines (pad ++ openTag tag attrs ++ closeTag tag)
        | Some [] => push lines (pad ++ openTag tag attrs ++ closeTag tag)
        | Some kids =>
            if negb (isRawBlockTag tag) && shouldInlineTextOnly void children
            then
              push lines
                (pad ++ openTag tag attrs ++ escapeHtml (onlyText kids)
                 ++ closeTag tag)
            else
              let lines1 := push lines (pad ++ openTag tag attrs) in
              let lines2 :=
                if isRawBlockTag tag then
                  fold_left
                    (fun ls c =>
                       match c with
                       | Text text => pushRawLines (pad ++ indentUnit) text ls
                       | Raw html => pushRawLines (pad ++ indentUnit) html ls
                       | _ => emit c (depth + 1) ls
                       end)
                    kids lines1
                else fold_left (fun ls c => emit c (depth + 1) ls) kids lines1 in
              push lines2 (pad ++ closeTag tag)
        end
  end.

Definition renderAstPretty (root : HtmlAst) : string :=
  match emit root 0 [] with
  | [] => EmptyString
  | lines => join nl lines ++ nl
  end.

Definition renderPretty (parts : list Part) : string :=
  let astParts :=
    map (fun p =>
           match p with
           | PString s => Raw s
           | PRawHtml r =>
               match __ast r with
               | Some a => a
               | None => Raw (__rawHtml r)
               end
           end) parts in
  renderAstPretty (Fragment astParts).

End FluentHtml.

(** Integers as numbers, for the concrete calls below. *)
#[export] Instance IntegerNumber : JsNumber := {|
  number := Z;
  numberToString := fun z => NilZero.string_of_int (Z.to_int z)
|}.

(** An integer as a number. *)
Definition int (z : Z) : @number IntegerNumber := z.

(** ** fluent-html.ts: the helpers around the tag functions *)

(** [ClassSpec = string | null | undefined | false | ClassSpec[] |
    Record<string, boolean>] *)
Inductive ClassSpec : Type :=
| KString (s : string)
| KNull
| KUndefined
| KFalse
| KArray (xs : list ClassSpec)
| KRecord (entries : list (string * bool)).

(** [visit] of [classNames], with the array [out] it pushes to. The empty
    string is falsy; arrays and records are not. *)
Fixpoint visitClass (p : ClassSpec) (out : list string) {struct p} : list string :=
  match p with
  | KNull | KUndefined | KFalse | KString EmptyString => out
  | KArray xs => fold_left (fun o x => visitClass x o) xs out
  | KRecord entries =>
      fold_left (fun o (kv : string * bool) => if snd kv then (o ++ [fst kv])%list else o)
        entries out
  | KString s =>
      match trim s with
      | EmptyString => out
      | t => (out ++ [t])%list
      end
  end.

Definition classNames (parts : list ClassSpec) : string :=
  join " " (fold_left (fun out p => visitClass p out) parts []).

(** A code unit that the pattern [[A-Z]] matches. *)
Definition isUpperAZ (a : ascii) : bool :=
  let n := nat_of_ascii a in ((65 <=? n) && (n <=? 90))%nat.

(** [toKebab] of [styleText]: [s.replace(/[A-Z]/g, (m) => "-" +
    m.toLowerCase())]. *)
Fixpoint toKebab (s : string) : string :=
  match s with
  | EmptyString => EmptyString
  | String a s' =>
      if isUpperAZ a then "-" ++ String (lowerChar a) (toKebab s')
      else String a (toKebab s')
  end.

(** [l.slice(n)] for a count [n] of code units. *)
Fixpoint slice (n : nat) (l : string) : string :=
  match n, l with
  | O, _ => l
  | S _, EmptyString => EmptyString
  | S k, String _ l' => slice k l'
  end.

(** The length of what the pattern for leading white space matches in
    [line.match(...)]: the white space a line starts with. *)
Fixpoint leadingWhiteSpace (l : string) : nat :=
  match l with
  | EmptyString => 0
  | String a l' => if isWhiteSpace a then S (leadingWhiteSpace l') else 0
  end.

(** [!line.trim()] *)
Definition isBlank (line : string) : bool :=
  match trim line with
  | EmptyString => true
  | String _ _ => false
  end.

(** The loop that pops the blank lines at the end of [lines]. *)
Fixpoint popTrailingBlank (lines : list string) : list string :=
  match lines with
  | [] => []
  | l :: rest =>
      match popTrailingBlank rest with
      | [] => if isBlank l then [] else [l]
      | kept => l :: kept
      end
  end.

(** The loop that computes [minIndent]; [None] stands for [Infinity]. *)
Definition minIndentOf (lines : list string) : option nat :=
  fold_left
    (fun m line =>
       if isBlank line then m
       else match m with
            | None => Some (leadingWhiteSpace line)
            | Some k => Some (Nat.min k (leadingWhiteSpace line))
            end)
    lines None.

(** The text of a template: [strings[0] ?? ""], then for every expression its
    string and [strings[i + 1] ?? ""]. The expressions are given by what
    [String(...)] makes of them. *)
Fixpoint templateRest (exprs strings : list string) : string :=
  match exprs with
  | [] => EmptyString
  | e :: exprs' =>
      e ++ match strings with
           | [] => templateRest exprs' []
           | s :: strings' => s ++ templateRest exprs' strings'
           end
  end.

Definition templateText (strings exprs : list string) : string :=
  match strings with
  | [] => templateRest exprs []
  | s0 :: strings' => s0 ++ templateRest exprs strings'
  end.

Section FluentHtmlHelpers.
Context `{JsNumber}.

Definition trustedRawFriendly (strings exprs : list string) : result RawHtml :=
  let full := replaceAll (cr ++ nl) nl (templateText strings exprs) in
  match split "010"%char full with
  | [] => Throw (Error "javaScript() template must start with a blank first line")
  | first :: rest =>
      if negb (isBlank first)
      then Throw (Error "javaScript() template must start with a blank first line")
      else
        let lines := popTrailingBlank rest in
        let minIndent :=
          match minIndentOf lines with
          | Some k => k
          | None => 0
          end in
        let dedented :=
          join nl (map (fun l => if (0 <? minIndent)%nat then slice minIndent l else l)
                     lines) in
        Ok (trustedRaw dedented None)
  end.

Definition javaScript : list string -> list string -> result RawHtml :=
  trustedRawFriendly.

(** [out[k] = v] on an attribute object: an own property keeps its place, a
    new one goes last. *)
Fixpoint setAttr (out : Attrs) (k : string) (v : AttrValue) : Attrs :=
  match out with
  | [] => [(k, v)]
  | kv :: rest =>
      if String.eqb (fst kv) k then (fst kv, v) :: rest
      else kv :: setAttr rest k v
  end.

(** [attrs(...parts)]: a part that is [null], [undefined] or [false] is
    [None]. *)
Definition attrs (parts : list (option Attrs)) : Attrs :=
  fold_left
    (fun out p =>
       match p with
       | None => out
       | Some a => fold_left (fun o kv => setAttr o (fst kv) (snd kv)) a out
       end)
    parts [].

(** The values of [styleText]: [string | number | null | undefined | false]. *)
Inductive StyleValue : Type :=
| SString (s : string)
| SNumber (n : number)
| SNull
| SUndefined
| SFalse.

(** [style[k]] *)
Definition getStyle (style : list (string * StyleValue)) (k : string) : StyleValue :=
  match find (fun kv => String.eqb (fst kv) k) style with
  | Some kv => snd kv
  | None => SUndefined
  end.

Definition styleText (style : list (string * StyleValue)) : string :=
  fold_left
    (fun s k =>
       match getStyle style k with
       | SNull | SUndefined | SFalse => s
       | SString v => s ++ toKebab k ++ ":" ++ v ++ ";"
       | SNumber n => s ++ toKebab k ++ ":" ++ numberToString n ++ ";"
       end)
    (sortKeys (map fst style)) EmptyString.

(** The items of a loop with the index [i++] of each, from 0. *)
Fixpoint withIndex {T : Type} (i : nat) (items : list T) : list (T * nat) :=
  match items with
  | [] => []
  | it :: rest => (it, i) :: withIndex (S i) rest
  end.

(** [each(items, fn)]: the builder that calls [e(fn(it, i++))] for every
    item. *)
Definition each {T : Type} (items : list T) (fn : T -> nat -> Child) : Child :=
  CBuilder (map (fun p => [fn (fst p) (snd p)]) (withIndex 0 items)).

(** [children(builder)] *)
Definition children (builder : Child) : Child := builder.

(** [scriptJs(code, attrs)]: [script(attrs ?? {}, trustedRaw(code))]. The
    object is the first argument of the tag function, which tests it with
    [isAttrs]. *)
Definition scriptJs (code : string) (at_ : option Attrs)
  : option (result RawHtml) :=
  elArgs "script"
    (Some (ArgObject (orEmpty at_), [CRawHtml (trustedRaw code None)])).

(** [styleCss(cssText, attrs)]: [style(attrs ?? {}, trustedRaw(cssText))] *)
Definition styleCss (cssText : string) (at_ : option Attrs)
  : option (result RawHtml) :=
  elArgs "style"
    (Some (ArgObject (orEmpty at_), [CRawHtml (trustedRaw cssText None)])).

(** [customElement(name)] *)
Definition customElement (name : string)
  : option Attrs -> list Child -> result RawHtml := tag name.

End FluentHtmlHelpers.

(** ** The design-system runtime

    [fluent-ds.ts] ([createDesignSystem], [defineRegion], [defineLayout],
    [slots], the render context and [page]) is imported by the design systems
    of the repository. Its definitions here follow the specification
    (sections 3, 4.3 to 4.6, 6 and 7). *)

Section DesignSystem.
Context `{JsNumber}.

(** [NamingStrategy], with the fields the design systems define. *)
Record NamingStrategy : Type := mkNaming {
  elemIdValue : string -> string -> string;
  elemDataAttr : string -> string -> string -> string;
  className : string -> string -> string
}.

(** Modelled from the spec: the render context of [fluent-ds.ts], which
    carries the naming strategy; [cls] names a class through the strategy
    with the kind (region or layout) of the definition being rendered. *)
Record RenderCtx : Type := mkCtx {
  naming : NamingStrategy;
  cls : string -> string
}.

Definition ctxFor (n : NamingStrategy) (kind : string) : RenderCtx :=
  mkCtx n (fun suggested => className n suggested kind).

(** [SlotBuilder]: a render callback. *)
Definition SlotBuilder : Type := RenderCtx -> result RawHtml.

(** A value a caller supplies under a slot name: a function, or something
    that is no function (of which only its truthiness matters). *)
Inductive SlotValue : Type :=
| SlotFn (b : SlotBuilder)
| NotCallable (truthy : bool).

(** A slot map: an object from slot names to values. *)
Definition SlotMap : Type := list (string * SlotValue).

(** [slots[k]] *)
Definition getSlot (m : SlotMap) (k : string) : option SlotValue :=
  match find (fun kv => String.eqb (fst kv) k) m with
  | Some kv => Some (snd kv)
  | None => None
  end.

(** The accessors a render function reads: [s.title] is the builder, or
    [undefined]. *)
Definition ResolvedSlots : Type := string -> option SlotBuilder.

Definition resolve (m : SlotMap) : ResolvedSlots :=
  fun k => match getSlot m k with
           | Some (SlotFn b) => Some b
           | _ => None
           end.

(** [s.k(ctx)]: calling [undefined] throws a TypeError. *)
Definition callSlot (s : ResolvedSlots) (k : string) (ctx : RenderCtx)
  : result RawHtml :=
  match s k with
  | Some b => b ctx
  | None => Throw (Error ("TypeError: s." ++ k ++ " is not a function"))
  end.

(** Modelled from the spec: [slots({ required, optional })] of [fluent-ds.ts],
    the slot specification of section 3. *)
Record SlotSpec : Type := slots {
  required : list string;
  optional : list string
}.

Inductive UnknownSlotMode : Type := ThrowOnUnknown | IgnoreUnknown.

(** Modelled from the spec: the validation step of [fluent-ds.ts] (section
    4.3). Every required name must be supplied as a callable builder, or the
    call fails with [MissingRequiredSlot]; then every supplied name outside
    required and optional is an [UnknownSlot], thrown under the policy
    [ThrowOnUnknown] and passed over under [IgnoreUnknown]. *)
Fixpoint checkRequired (owner : string) (names : list string) (supplied : SlotMap)
  : result unit :=
  match names with
  | [] => Ok tt
  | k :: rest =>
      match getSlot supplied k with
      | Some (SlotFn _) => checkRequired owner rest supplied
      | _ => Throw (MissingRequiredSlot k owner)
      end
  end.

Definition declared (spec : SlotSpec) (k : string) : bool :=
  existsb (String.eqb k) (required spec) || existsb (String.eqb k) (optional spec).

Fixpoint checkUnknown (owner : string) (spec : SlotSpec) (policy : UnknownSlotMode)
    (names : list string) : result unit :=
  match names with
  | [] => Ok tt
  | k :: rest =>
      if declared spec k then checkUnknown owner spec policy rest
      else
        match policy with
        | ThrowOnUnknown => Throw (UnknownSlot k owner)
        | IgnoreUnknown => checkUnknown owner spec policy rest
        end
  end.

Definition validateSlots (owner : string) (spec : SlotSpec)
    (policy : UnknownSlotMode) (supplied : SlotMap) : result unit :=
  _ <- checkRequired owner (required spec) supplied ;;
  checkUnknown owner spec policy (map fst supplied).

(** Modelled from the spec: [defineRegion] of [fluent-ds.ts] (section 4.4). *)
Record Region : Type := defineRegion {
  regionName : string;
  regionSlots : SlotSpec;
  regionRender : RenderCtx -> ResolvedSlots -> result RawHtml
}.

(** Modelled from the spec: the region API a layout renders with (section
    3): [region(name, subslots)]. *)
Record RegionApi : Type := mkApi {
  apiRegion : string -> SlotMap -> result RawHtml
}.

(** Modelled from the spec: [defineLayout] of [fluent-ds.ts] (section 4.5). *)
Record Layout : Type := defineLayout {
  layoutName : string;
  layoutSlots : SlotSpec;
  layoutHeadSlots : option SlotSpec;
  layoutRender : RenderCtx -> RegionApi -> ResolvedSlots -> result RawHtml
}.

(** A user-agent dependency (section 6). *)
Record UaDependency : Type := mkUaDependency {
  mountPoint : string;
  canonicalSource : string;
  mimeType : string;
  as_ : option string
}.

(** Modelled from the spec: the design system that [createDesignSystem] of
    [fluent-ds.ts] builds (sections 3 and 4.6); of the policies, the handling
    of unknown slots (wrapper elements are switched off by the design systems
    modelled here). *)
Record DesignSystem : Type := mkDesignSystem {
  dsName : string;
  dsNaming : NamingStrategy;
  unknownSlotMode : UnknownSlotMode;
  dsUaDependencies : list UaDependency;
  dsRegions : list Region;
  dsLayouts : list Layout
}.

Definition createDesignSystem (name : string) (n : NamingStrategy) : DesignSystem :=
  mkDesignSystem name n ThrowOnUnknown [] [] [].

(** [policies({ ... })]: [dev] is the unknown-slot mode the argument gives, if
    it gives one. *)
Definition policies (dev : option UnknownSlotMode) (ds : DesignSystem) : DesignSystem :=
  match dev with
  | Some m =>
      mkDesignSystem (dsName ds) (dsNaming ds) m (dsUaDependencies ds)
        (dsRegions ds) (dsLayouts ds)
  | None => ds
  end.

Definition uaDependencies (deps : list UaDependency) (ds : DesignSystem) : DesignSystem :=
  mkDesignSystem (dsName ds) (dsNaming ds) (unknownSlotMode ds) deps
    (dsRegions ds) (dsLayouts ds).

Definition region (r : Region) (ds : DesignSystem) : DesignSystem :=
  mkDesignSystem (dsName ds) (dsNaming ds) (unknownSlotMode ds)
    (dsUaDependencies ds) (dsRegions ds ++ [r]) (dsLayouts ds).

Definition layout (l : Layout) (ds : DesignSystem) : DesignSystem :=
  mkDesignSystem (dsName ds) (dsNaming ds) (unknownSlotMode ds)
    (dsUaDependencies ds) (dsRegions ds) (dsLayouts ds ++ [l]).

(** The first name that occurs twice. *)
Fixpoint firstDuplicate (names : list string) : option string :=
  match names with
  | [] => None
  | k :: rest =>
      if existsb (String.eqb k) rest then Some k else firstDuplicate rest
  end.

(** Modelled from the spec: [build()] of [fluent-ds.ts] refuses two regions
    or two layouts of one name (sections 4.4 and 7). *)
Definition build (ds : DesignSystem) : result DesignSystem :=
  match firstDuplicate (map regionName (dsRegions ds)) with
  | Some k => Throw (DuplicateRegistration "region" k)
  | None =>
      match firstDuplicate (map layoutName (dsLayouts ds)) with
      | Some k => Throw (DuplicateRegistration "layout" k)
      | None => Ok ds
      end
  end.

(** Modelled from the spec: the lookup-and-invoke of a region by name that
    [fluent-ds.ts] gives a layout (sections 2, 3 and 4.5): [UnknownRegion]
    for a name that is not registered, then the validation of the slots, then
    the region's render function on the context and the slot accessors. *)
Definition invokeRegion (ds : DesignSystem) (name : string) (supplied : SlotMap)
  : result RawHtml :=
  match find (fun r => String.eqb (regionName r) name) (dsRegions ds) with
  | None => Throw (UnknownRegion name)
  | Some r =>
      _ <- validateSlots (regionName r) (regionSlots r) (unknownSlotMode ds) supplied ;;
      regionRender r (ctxFor (dsNaming ds) "region") (resolve supplied)
  end.

(** Modelled from the spec: the tag [page] of [fluent-ds.ts] emits for a
    user-agent dependency (section 6): a stylesheet link for a CSS MIME type, a
    script (of type module when the dependency says so) for a JavaScript MIME
    type. *)
Definition uaTag (d : UaDependency) : result (list Child) :=
  if String.eqb (mimeType d) "text/css" then
    r <- tag "link"
           (Some [("rel", VString "stylesheet"); ("href", VString (mountPoint d))]) [] ;;
    Ok [CRawHtml r]
  else if String.eqb (mimeType d) "application/javascript"
          || String.eqb (mimeType d) "text/javascript" then
    r <- tag "script"
           (Some (("src", VString (mountPoint d))
                  :: match as_ d with
                     | Some a => [("type", VString a)]
                     | None => []
                     end)) [] ;;
    Ok [CRawHtml r]
  else Ok [].

(** Modelled from the spec: the head slots [page] of [fluent-ds.ts] renders
    (sections 4.5 and 4.6): the builders supplied for the names the layout
    declares, in the order of the declaration. *)
Definition headSlotOutputs (ctx : RenderCtx) (spec : option SlotSpec)
    (supplied : SlotMap) : result (list RawHtml) :=
  let names :=
    match spec with
    | Some sp => (required sp ++ optional sp)%list
    | None => []
    end in
  mapResult (fun b : SlotBuilder => b ctx)
    (flat_map (fun k => match resolve supplied k with
                        | Some b => [b]
                        | None => []
                        end) names).

(** Modelled from the spec: the children of the document head that [page] of
    [fluent-ds.ts] builds (section 4.6, step 5): the tags of the user-agent
    dependencies in registration order, then the head slots. *)
Definition headChildren (ds : DesignSystem) (ctx : RenderCtx)
    (spec : option SlotSpec) (headSlots : SlotMap) : result (list Child) :=
  uaTags <- mapResult uaTag (dsUaDependencies ds) ;;
  outs <- headSlotOutputs ctx spec headSlots ;;
  Ok (concat uaTags ++ map CRawHtml outs)%list.

(** Modelled from the spec: [page(layoutName, renderContext, { slots,
    headSlots })] of [fluent-ds.ts], steps 1 to 6 of section 4.6. The result
    keeps the tree (the doctype, then the html element) beside its minimized
    serialization. The render input of the design systems modelled here is
    the empty record and is left out. *)
Definition page (ds : DesignSystem) (name : string) (supplied headSlots : SlotMap)
  : result RawHtml :=
  match find (fun l => String.eqb (layoutName l) name) (dsLayouts ds) with
  | None => Throw (UnknownLayout name)
  | Some l =>
      _ <- validateSlots (layoutName l) (layoutSlots l) (unknownSlotMode ds) supplied ;;
      _ <- match layoutHeadSlots l with
           | Some hs => validateSlots (layoutName l) hs (unknownSlotMode ds) headSlots
           | None => Ok tt
           end ;;
      let ctx := ctxFor (dsNaming ds) "layout" in
      body <- layoutRender l ctx (mkApi (invokeRegion ds)) (resolve supplied) ;;
      inHead <- headChildren ds ctx (layoutHeadSlots l) headSlots ;;
      headEl <- tag "head" None inHead ;;
      bodyEl <- tag "body" None [CRawHtml body] ;;
      htmlEl <- tag "html" None [CRawHtml headEl; CRawHtml bodyEl] ;;
      Ok (mkRawHtml (render [PRawHtml doctype; PRawHtml htmlEl])
            (Some (Fragment [Doctype;
                             match __ast htmlEl with
                             | Some a => a
                             | None => Raw (__rawHtml htmlEl)
                             end])))
  end.

(** ** fluent-ds-starter.ts *)

Definition picoCssUrl : string :=
  "https://cdn.jsdelivr.net/npm/@picocss/pico@2/css/pico.min.css".

Definition starterNaming : NamingStrategy :=
  mkNaming
    (fun suggested kind => kind ++ "-" ++ suggested)
    (fun suggestedKeyName _suggestedValue _kind => "data-" ++ suggestedKeyName)
    (fun suggested kind => kind ++ "-" ++ suggested).

(** [s.k] as a property value of a new slot map. *)
Definition slotValue (s : ResolvedSlots) (k : string) : SlotValue :=
  match s k with
  | Some b => SlotFn b
  | None => NotCallable false
  end.

Definition starterMainRegion : Region :=
  defineRegion "Main"
    (slots ["title"; "content"] ["lead"])
    (fun ctx s =>
       title <- callSlot s "title" ctx ;;
       h1 <- tag "h1" None [CRawHtml title] ;;
       lead <- match s "lead" with
               | Some b =>
                   l <- b ctx ;;
                   d <- tag "div" (Some [("class", VString (cls ctx "lead"))])
                          [CRawHtml l] ;;
                   Ok (CRawHtml d)
               | None => Ok CNull
               end ;;
       content <- callSlot s "content" ctx ;;
       sec <- tag "section" (Some [("class", VString (cls ctx "content"))])
                [CRawHtml content] ;;
       tag "main"
         (Some [("class", VString (cls ctx "main"));
                ("id", VString (elemIdValue (naming ctx) "main" "region"))])
         [CRawHtml h1; lead; CRawHtml sec]).

Definition starterLayout : Layout :=
  defineLayout "Starter"
    (slots ["title"; "content"] ["lead"])
    (Some (slots [] ["title"]))
    (fun ctx api s =>
       main <- apiRegion api "Main"
                 ([("title", slotValue s "title");
                   ("content", slotValue s "content")]
                  ++ match s "lead" with
                     | Some b => [("lead", SlotFn b)]
                     | None => []
                     end)%list ;;
       tag "section"
         (Some [("class", VString (cls ctx "shell"));
                ("id", VString (elemIdValue (naming ctx) "shell" "layout"))])
         [CRawHtml main]).

(** [policies({ wrappers: { enabled: false } })] says nothing on unknown
    slots. *)
Definition starterDesignSystem (dsName : string) : result DesignSystem :=
  build
    (layout starterLayout
       (region starterMainRegion
          (uaDependencies
             [mkUaDependency picoCssUrl picoCssUrl "text/css" None]
             (policies None (createDesignSystem dsName starterNaming))))).

(** The page of [fluent-ds-starter_test.ts], pretty printed and trimmed. *)
Definition starterTestPage : result string :=
  ds <- starterDesignSystem "starter-ds" ;;
  p <- tag "p" None [CString "PicoCSS-powered starter."] ;;
  q <- tag "p" None [CString "Hello from the starter design system."] ;;
  pg <- page ds "Starter"
          [("title", SlotFn (fun _ => Ok (trustedRaw "Starter DS" None)));
           ("lead", SlotFn (fun _ => Ok p));
           ("content", SlotFn (fun _ => Ok q))]
          [] ;;
  Ok (trim (renderPretty [PRawHtml pg])).

End DesignSystem.

(** ** natural.ts: the head merge of [naturalDesignSystem] *)

Section NaturalHead.
Context `{JsNumber}.

(** [HeadSlotInput] and [headSlots] come from [patterns.ts]; [defaultInput] is
    the literal [{ styles: [h.style(...)] }] of [naturalDesignSystem]. *)
Variable HeadSlotInput : Type.
Variable headSlots : HeadSlotInput -> SlotMap.
Variable defaultInput : HeadSlotInput.

Definition defaultHead : SlotMap := headSlots defaultInput.

(** [if (value)] *)
Definition truthy (v : SlotValue) : bool :=
  match v with
  | SlotFn _ => true
  | NotCallable t => t
  end.

(** [merged[key] = value]: an own property keeps its place, a new one goes
    last. *)
Fixpoint setProp (merged : SlotMap) (key : string) (value : SlotValue) : SlotMap :=
  match merged with
  | [] => [(key, value)]
  | kv :: rest =>
      if String.eqb (fst kv) key then (fst kv, value) :: rest
      else kv :: setProp rest key value
  end.

Definition mergeHead (input : option HeadSlotInput) : SlotMap :=
  let overrides :=
    match input with
    | Some i => headSlots i
    | None => []
    end in
  fold_left
    (fun merged kv =>
       if truthy (snd kv) then setProp merged (fst kv) (snd kv) else merged)
    overrides defaultHead.

(** The [page] of the design system [naturalDesignSystem] returns:
    [ds.page(layoutName, renderCtx, { ...options, headSlots:
    mergeHead(options.headSlots) })]. *)
Definition naturalPage (ds : DesignSystem) (name : string) (supplied : SlotMap)
    (headSlotsInput : option HeadSlotInput) : result RawHtml :=
  page ds name supplied (mergeHead headSlotsInput).

End NaturalHead.

Arguments defaultHead {_ HeadSlotInput} headSlots defaultInput.
Arguments mergeHead {_ HeadSlotInput} headSlots defaultInput input.
Arguments naturalPage {_ HeadSlotInput} headSlots defaultInput ds name supplied
  headSlotsInput.

(** ** canonical.ts and fluent-ds-corpus.ts: [optionalSlots] *)

(** [optionalSlots(slots)]: the record [slots] holds a builder or [undefined]
    under each key; [out[key] = value] for every value that is not
    [undefined]. *)
Definition optionalSlots `{JsNumber} (slots : list (string * option SlotBuilder))
  : SlotMap :=
  fold_left
    (fun out kv =>
       match snd kv with
       | Some value => setProp out (fst kv) (SlotFn value)
       | None => out
       end)
    slots [].

(** ** Definitions the statements use *)

(** Replacing each code unit of a string by a string, in one pass. *)
Fixpoint mapChars (f : ascii -> string) (s : string) : string :=
  match s with
  | EmptyString => EmptyString
  | String a s' => f a ++ mapChars f s'
  end.

(** The entity of one code unit, as the specification lists them. *)
Definition escapeChar (a : ascii) : string :=
  if Ascii.eqb a "&"%char then "&amp;"
  else if Ascii.eqb a "<"%char then "&lt;"
  else if Ascii.eqb a ">"%char then "&gt;"
  else if Ascii.eqb a "034"%char then "&quot;"
  else if Ascii.eqb a "'"%char then "&#39;"
  else String a EmptyString.

(** Escaping exactly once: every code unit is replaced by its entity, and the
    entities are not looked at again. *)
Definition escapeOnce (s : string) : string := mapChars escapeChar s.

(** What one child contributes to the flattened list, as the rules of
    [flattenChildren] read. *)
Fixpoint itemsOf `{JsNumber} (c : Child) : list FlatChild :=
  match c with
  | CNull | CUndefined | CBoolean _ => []
  | CString s => [FString s]
  | CNumber n => [FString (numberToString n)]
  | CRawHtml r => [FRawHtml r]
  | CDomNodeLike n => [FDomNodeLike n]
  | CArray xs => flat_map itemsOf xs
  | CBuilder calls => flat_map (flat_map itemsOf) calls
  end.

(** The token of one attribute, as the specification reads: [true] gives the
    bare name; [false], [null] and [undefined] give nothing; any other value
    gives the name, and the escaped value between double quotes. *)
Definition attrToken `{JsNumber} (k : string) (v : AttrValue) : string :=
  match v with
  | VBoolean true => " " ++ k
  | VBoolean false | VNull | VUndefined => EmptyString
  | VString _ | VNumber _ => " " ++ k ++ "=" ++ dq ++ escapeOnce (toStr v) ++ dq
  end.

(** The attribute text of an element, as the specification reads: the tokens
    of the keys in sorted order. *)
Definition sortedAttrTokens `{JsNumber} (a : Attrs) : string :=
  join EmptyString (map (fun k => attrToken k (getAttr a k)) (sortKeys (objectKeys a))).

(** The attribute text of a call: none without an attribute object. *)
Definition attrTokensOf `{JsNumber} (at_ : option Attrs) : string :=
  match at_ with
  | Some a => sortedAttrTokens a
  | None => EmptyString
  end.

(** The concatenated minimized serializations of a list of nodes. *)
Definition inner `{JsNumber} (nodes : list HtmlAst) : string :=
  join EmptyString (map renderAstMinimized nodes).

(** The tree a part of [render] retains: [p.__ast], or the raw node of its
    string. *)
Definition astOf `{JsNumber} (r : RawHtml) : HtmlAst :=
  match __ast r with
  | Some a => a
  | None => Raw (__rawHtml r)
  end.

(** What [attrsToAst] keeps of one key. *)
Definition keptAttr `{JsNumber} (a : Attrs) (k : string) : list (string * AttrValue) :=
  match getAttr a k with
  | VNull | VUndefined | VBoolean false => []
  | v => [(k, v)]
  end.

(** The order of [sort()] on keys: code unit by code unit. *)
Definition keyLe (x y : string) : Prop := String.leb x y = true.

(** The attribute list of the node of a call. *)
Definition attrsAst `{JsNumber} (at_ : option Attrs) : option (list (string * AttrValue)) :=
  match at_ with
  | Some a => Some (attrsToAst a)
  | None => None
  end.

(** The message of the error for a DOM-like child. *)
Definition domNodeError : JsError :=
  Error "Fluent server error: DomNodeLike not supported here.".

(** A call into the module that reads or writes the raw policy. *)
Inductive PolicyCall : Type :=
| CallSetRawPolicy (policy : RawPolicyArg)
| CallRaw (html : string) (hint : option string)
| CallTrustedRaw (html : string) (hint : option string).

(** One call on the module state: the state after it, and what it returns or
    throws ([setRawPolicy] returns nothing). *)
Definition policyStep `{JsNumber} (st : RawPolicy) (c : PolicyCall)
  : RawPolicy * option (result RawHtml) :=
  match c with
  | CallSetRawPolicy p => (setRawPolicy st p, None)
  | CallRaw html hint => (st, Some (raw st html hint))
  | CallTrustedRaw html hint => (st, Some (Ok (trustedRaw html hint)))
  end.

(** The outcomes of a sequence of calls, in order. *)
Fixpoint policyRun `{JsNumber} (st : RawPolicy) (calls : list PolicyCall)
  : list (option (result RawHtml)) :=
  match calls with
  | [] => []
  | c :: rest => snd (policyStep st c) :: policyRun (fst (policyStep st c)) rest
  end.

Definition isSetRawPolicy (c : PolicyCall) : bool :=
  match c with
  | CallSetRawPolicy _ => true
  | _ => false
  end.

(** The condition [RawPolicyViolation]: the error of [raw] under the
    dev-strict policy. *)
Definition isRawPolicyViolation (e : JsError) : bool :=
  match e with
  | Error message => startsWith "raw() is blocked by dev-strict policy" message
  | _ => false
  end.

(** A slot name is supplied as a callable builder. *)
Definition callable `{JsNumber} (supplied : SlotMap) (k : string) : bool :=
  match getSlot supplied k with
  | Some (SlotFn _) => true
  | _ => false
  end.

(** A string between double quotes. *)
Definition quoted (s : string) : string := dq ++ s ++ dq.

(** The document of [fluent-ds-starter_test.ts], with the lines of the
    heading left open. *)
Definition starterDocument (h1Lines : list string) : string :=
  join nl
    (app
       ["<!doctype html>";
        "<html>";
        "  <head>";
        "    <link href=" ++ quoted picoCssUrl ++ " rel=" ++ quoted "stylesheet" ++ ">";
        "  </head>";
        "  <body>";
        "    <section class=" ++ quoted "layout-shell" ++ " id=" ++ quoted "layout-shell" ++ ">";
        "      <main class=" ++ quoted "region-main" ++ " id=" ++ quoted "region-main" ++ ">"]
       (app h1Lines
          ["        <div class=" ++ quoted "region-lead" ++ ">";
           "          <p>PicoCSS-powered starter.</p>";
           "        </div>";
           "        <section class=" ++ quoted "region-content" ++ ">";
           "          <p>Hello from the starter design system.</p>";
           "        </section>";
           "      </main>";
           "    </section>";
           "  </body>";
           "</html>"])).

(** The string the test compares the trimmed page with. *)
Definition starterFixture : string :=
  starterDocument ["        <h1>Starter DS</h1>"].

(** The loop of [mergeHead] over the entries of the overrides. *)
Definition mergeEntries `{JsNumber} (overrides merged : SlotMap) : SlotMap :=
  fold_left
    (fun merged kv =>
       if truthy (snd kv) then setProp merged (fst kv) (snd kv) else merged)
    overrides merged.

(** A slot builder that returns the given text as trusted raw HTML. *)
Definition textSlot `{JsNumber} (text : string) : SlotValue :=
  SlotFn (fun _ => Ok (trustedRaw text None)).

(** The slots of the page of [fluent-ds-starter_test.ts] but its [content]. *)
Definition titleOnly `{JsNumber} : SlotMap := [("title", textSlot "Starter DS")].

(** A builder of the head: the element of the given tag around a text. *)
Definition headElement `{JsNumber} (name text : string) : SlotBuilder :=
  fun _ => tag name None [CString text].

(** A text holds none of the five characters [escapeHtml] replaces. *)
Fixpoint isClean (s : string) : bool :=
  match s with
  | EmptyString => true
  | String a s' =>
      negb (Ascii.eqb a "&"%char || Ascii.eqb a "<"%char || Ascii.eqb a ">"%char
            || Ascii.eqb a "034"%char || Ascii.eqb a "'"%char)
      && isClean s'
  end.

(** The tokens one class specification contributes, as the rules of
    [classNames] read. *)
Fixpoint tokensOf (p : ClassSpec) : list string :=
  match p with
  | KNull | KUndefined | KFalse => []
  | KString s =>
      match trim s with
      | EmptyString => []
      | t => [t]
      end
  | KArray xs => flat_map tokensOf xs
  | KRecord entries => map fst (filter snd entries)
  end.

(** A string holds a capital letter A-Z. *)
Fixpoint hasUpperAZ (s : string) : bool :=
  match s with
  | EmptyString => false
  | String a s' => isUpperAZ a || hasUpperAZ s'
  end.

(** The declaration [styleText] writes for a key. *)
Definition styleDecl `{JsNumber} (style : list (string * StyleValue)) (k : string)
  : string :=
  match getStyle style k with
  | SNull | SUndefined | SFalse => EmptyString
  | SString v => toKebab k ++ ":" ++ v ++ ";"
  | SNumber n => toKebab k ++ ":" ++ numberToString n ++ ";"
  end.

(** The cached string of a [RawHtml] is the minimized serialization of the
    tree it retains. *)
Definition consistent `{JsNumber} (r : RawHtml) : Prop :=
  __rawHtml r = renderAstMinimized (astOf r).

(** A string of white space that holds no line break: an indentation. *)
Fixpoint isIndent (w : string) : bool :=
  match w with
  | EmptyString => true
  | String a w' =>
      isWhiteSpace a && negb (Ascii.eqb a "010"%char)
      && negb (Ascii.eqb a "013"%char) && isIndent w'
  end.

(** A line holds neither a line feed nor a carriage return. *)
Definition isLine (l : string) : bool :=
  negb (includes "010"%char l) && negb (includes "013"%char l).

(** A line starts with the indentation of a depth. *)
Definition indentedAt (depth : nat) (line : string) : Prop :=
  exists rest, line = repeat indentUnit depth ++ rest.

(** A value [attrsToAst] keeps: any but [null], [undefined] and [false]. *)
Definition keptValue `{JsNumber} (v : AttrValue) : bool :=
  match v with
  | VNull | VUndefined | VBoolean false => false
  | _ => true
  end.

(** An attribute value that is written between double quotes: a string or
    a number. *)
Definition isTextValue `{JsNumber} (v : AttrValue) : bool :=
  match v with
  | VString _ | VNumber _ => true
  | _ => false
  end.

(** The lines of a text, each after one level of indentation, as the pretty
    renderer prints the text and raw nodes of a raw block and every raw node:
    CR LF read as LF, then one line for each line. *)
Definition verbatimLines (text : string) : list string :=
  map (fun line => indentUnit ++ line)
    (split "010"%char (replaceAll (cr ++ nl) nl text)).

(** The lines the loop of [emit] over the children of an element at depth 0
    pushes for one child: in a raw block tag the lines of a text or raw node
    as they are; otherwise what [emit] pushes for the child one level
    deeper. *)
Definition kidLines `{JsNumber} (tag : string) (c : HtmlAst) : list string :=
  if isRawBlockTag tag then
    match c with
    | Text text => verbatimLines text
    | Raw html => verbatimLines html
    | _ => emit c 1 []
    end
  else emit c 1 [].

(** A text the pretty renderer keeps on the line of its element: it holds no
    line feed and, trimmed, at most 80 code units. *)
Definition fitsOnLine (s : string) : bool :=
  if includes "010"%char s then false
  else (String.length (trim s) <=? 80)%nat.

(** A string child is the only child of its element and fits on a line. *)
Definition onlyChildOnLine `{JsNumber} (before after : list FlatChild) (s : string)
  : bool :=
  match before, after with
  | [], [] => fitsOnLine s
  | _, _ => false
  end.

(** An element the pretty renderer prints as a block: the open tag, the
    lines of the children, the close tag, each on a line. *)
Definition prettyBlock `{JsNumber} (tag : string) (at_ : option Attrs)
    (lines : list string) : string :=
  join nl
    (("<" ++ tag ++ attrTokensOf at_ ++ ">") :: app lines ["</" ++ tag ++ ">"])
  ++ nl.

(** The tokens of a run of keys of an attribute object. *)
Definition tokensOfKeys `{JsNumber} (a : Attrs) (keys : list string) : string :=
  join EmptyString (map (fun k => attrToken k (getAttr a k)) keys).

(** ** Strings *)

Lemma append_nil_r (s : string) : s ++ EmptyString = s.
Proof. induction s as [|a s IH]; simpl; [reflexivity | now rewrite IH]. Qed.

Lemma append_assoc (s1 s2 s3 : string) : (s1 ++ s2) ++ s3 = s1 ++ (s2 ++ s3).
Proof. induction s1 as [|a s1 IH]; simpl; [reflexivity | now rewrite IH]. Qed.

Lemma mapChars_app (f : ascii -> string) (s1 s2 : string) :
  mapChars f (s1 ++ s2) = mapChars f s1 ++ mapChars f s2.
Proof.
  induction s1 as [|a s1 IH]; simpl; [reflexivity|].
  now rewrite IH, append_assoc.
Qed.

Lemma mapChars_ext (f g : ascii -> string) (s : string) :
  (forall a, f a = g a) -> mapChars f s = mapChars g s.
Proof.
  intros E. induction s as [|a s IH]; simpl; [reflexivity | now rewrite E, IH].
Qed.

Lemma mapChars_mapChars (f g : ascii -> string) (s : string) :
  mapChars g (mapChars f s) = mapChars (fun a => mapChars g (f a)) s.
Proof.
  induction s as [|a s IH]; simpl; [reflexivity|].
  now rewrite mapChars_app, IH.
Qed.

(** [replaceAll] with a pattern of one code unit replaces code unit by code
    unit. *)
Lemma replaceAll_char (c : ascii) (rep s : string) :
  replaceAll (String c EmptyString) rep s
  = mapChars (fun a => if Ascii.eqb c a then rep else String a EmptyString) s.
Proof.
  unfold replaceAll.
  induction s as [|a s IH]; simpl; [reflexivity|].
  destruct (Ascii.eqb c a); simpl; now rewrite IH.
Qed.

(** The five passes of [escapeHtml] amount to one pass that replaces each of
    the five characters by its entity. *)
Lemma escapeHtml_once (s : string) : escapeHtml s = escapeOnce s.
Proof.
  unfold escapeHtml, escapeOnce, dq.
  rewrite !replaceAll_char, !mapChars_mapChars.
  apply mapChars_ext.
  intros [[] [] [] [] [] [] [] []]; reflexivity.
Qed.

(** ** Flattening *)

Section FlattenFacts.
Context `{JsNumber}.

(** Induction on a child, with the children of arrays and of the calls of a
    builder. *)
Lemma Child_nested_ind (P : Child -> Prop) :
  (forall s, P (CString s)) ->
  (forall n, P (CNumber n)) ->
  (forall b, P (CBoolean b)) ->
  P CNull ->
  P CUndefined ->
  (forall r, P (CRawHtml r)) ->
  (forall n, P (CDomNodeLike n)) ->
  (forall xs, Forall P xs -> P (CArray xs)) ->
  (forall calls, Forall (Forall P) calls -> P (CBuilder calls)) ->
  forall c, P c.
Proof.
  intros Hs Hn Hb Hnull Hundef Hr Hd Ha Hf.
  fix IH 1.
  intros [s|n|b| | |r|n|xs|calls].
  - apply Hs.
  - apply Hn.
  - apply Hb.
  - exact Hnull.
  - exact Hundef.
  - apply Hr.
  - apply Hd.
  - apply Ha. induction xs as [|x xs IHxs]; constructor.
    + apply IH.
    + exact IHxs.
  - apply Hf. induction calls as [|xs calls IHcalls]; constructor.
    + induction xs as [|x xs IHxs]; constructor.
      * apply IH.
      * exact IHxs.
    + exact IHcalls.
Qed.

Lemma fold_left_push {A : Type} (f : list FlatChild -> A -> list FlatChild)
    (g : A -> list FlatChild) (xs : list A) (out : list FlatChild) :
  Forall (fun x => forall o, f o x = (o ++ g x)%list) xs ->
  fold_left f xs out = (out ++ flat_map g xs)%list.
Proof.
  intros F. revert out.
  induction F as [|x xs Hx _ IH]; intros out; simpl.
  - now rewrite app_nil_r.
  - now rewrite Hx, IH, <- app_assoc.
Qed.

(** [visit] pushes the items of the child after what [out] holds. *)
Lemma visit_itemsOf (c : Child) :
  forall out, visit c out = (out ++ itemsOf c)%list.
Proof.
  induction c as [s|n|b| | |r|n|xs IHxs|calls IHcalls] using Child_nested_ind;
    intros out; simpl; try reflexivity; try (now rewrite app_nil_r).
  - destruct b; now rewrite app_nil_r.
  - now apply fold_left_push.
  - apply fold_left_push.
    induction IHcalls as [|xs calls Hxs _ IH]; constructor; auto.
    intros o. now apply fold_left_push.
Qed.

Lemma flattenChildren_itemsOf (children : list Child) :
  flattenChildren children = flat_map itemsOf children.
Proof.
  unfold flattenChildren.
  rewrite (fold_left_push (fun out c => visit c out) itemsOf); [reflexivity|].
  apply Forall_forall. intros c _ o. apply visit_itemsOf.
Qed.

Lemma flattenChildren_app (xs ys : list Child) :
  flattenChildren (xs ++ ys) = (flattenChildren xs ++ flattenChildren ys)%list.
Proof. rewrite !flattenChildren_itemsOf. apply flat_map_app. Qed.

Lemma flattenChildren_cons (c : Child) (rest : list Child) :
  flattenChildren (c :: rest) = (itemsOf c ++ flattenChildren rest)%list.
Proof. now rewrite !flattenChildren_itemsOf. Qed.

Lemma flat_map_concat {A B : Type} (f : A -> list B) (ls : list (list A)) :
  flat_map (flat_map f) ls = flat_map f (concat ls).
Proof.
  induction ls as [|l ls IH]; simpl; [reflexivity|].
  now rewrite flat_map_app, IH.
Qed.

(** C7. Flattening a list of children drops [null], [undefined], [false] and
    [true]; turns a string or a number into one text item; passes a [RawHtml]
    and a DOM-like object on; expands a nested array in place, recursively;
    and for a builder callback splices in, in call order, what flattening the
    arguments of its calls to the add-child callback gives. The result is the
    concatenation, in order, of what each child contributes: one pass. *)
Theorem flattenChildren_rules :
  forall (rest : list Child),
    flattenChildren (CNull :: rest) = flattenChildren rest
    /\ flattenChildren (CUndefined :: rest) = flattenChildren rest
    /\ flattenChildren (CBoolean false :: rest) = flattenChildren rest
    /\ flattenChildren (CBoolean true :: rest) = flattenChildren rest
    /\ (forall s, flattenChildren (CString s :: rest)
                  = FString s :: flattenChildren rest)
    /\ (forall n, flattenChildren (CNumber n :: rest)
                  = FString (numberToString n) :: flattenChildren rest)
    /\ (forall r, flattenChildren (CRawHtml r :: rest)
                  = FRawHtml r :: flattenChildren rest)
    /\ (forall n, flattenChildren (CDomNodeLike n :: rest)
                  = FDomNodeLike n :: flattenChildren rest)
    /\ (forall xs, flattenChildren (CArray xs :: rest)
                   = (flattenChildren xs ++ flattenChildren rest)%list)
    /\ (forall calls, flattenChildren (CBuilder calls :: rest)
                      = (flattenChildren (concat calls) ++ flattenChildren rest)%list)
    /\ (forall children, flattenChildren (children ++ rest)
                         = (flattenChildren children ++ flattenChildren rest)%list).
Proof.
  intros rest.
  repeat split; intros; try apply flattenChildren_app;
    rewrite flattenChildren_cons; simpl; try reflexivity.
  - now rewrite (flattenChildren_itemsOf xs).
  - now rewrite flat_map_concat, (flattenChildren_itemsOf (concat calls)).
Qed.

End FlattenFacts.

(** ** Joining strings, and loops that append *)

Lemma join_empty_cons (x : string) (l : list string) :
  join EmptyString (x :: l) = x ++ join EmptyString l.
Proof.
  unfold join. destruct l as [|y l]; simpl; [now rewrite append_nil_r | reflexivity].
Qed.

Lemma join_empty_app (l1 l2 : list string) :
  join EmptyString (l1 ++ l2) = join EmptyString l1 ++ join EmptyString l2.
Proof.
  induction l1 as [|x l1 IH]; [reflexivity|].
  change ((x :: l1) ++ l2)%list with (x :: (l1 ++ l2))%list.
  now rewrite !join_empty_cons, IH, append_assoc.
Qed.

Lemma fold_left_ext {A B : Type} (f g : A -> B -> A) (xs : list B) (init : A) :
  (forall a b, f a b = g a b) -> fold_left f xs init = fold_left g xs init.
Proof.
  intros E. revert init.
  induction xs as [|x xs IH]; intros init; simpl; [reflexivity|].
  now rewrite E, IH.
Qed.

Lemma fold_left_append {A : Type} (g : A -> string) (xs : list A) (init : string) :
  fold_left (fun s x => s ++ g x) xs init = init ++ join EmptyString (map g xs).
Proof.
  revert init. induction xs as [|x xs IH]; intros init.
  - simpl. now rewrite append_nil_r.
  - cbn [fold_left map]. now rewrite IH, join_empty_cons, append_assoc.
Qed.

Lemma fold_left_collect {A B : Type} (g : A -> list B) (xs : list A) (init : list B) :
  fold_left (fun out x => (out ++ g x)%list) xs init = (init ++ flat_map g xs)%list.
Proof.
  revert init. induction xs as [|x xs IH]; intros init; simpl.
  - now rewrite app_nil_r.
  - now rewrite IH, <- app_assoc.
Qed.

Lemma join_empty_flat_map {A B : Type} (g : B -> string) (h : A -> list B)
    (xs : list A) :
  join EmptyString (map g (flat_map h xs))
  = join EmptyString (map (fun x => join EmptyString (map g (h x))) xs).
Proof.
  induction xs as [|x xs IH]; [reflexivity|].
  cbn [flat_map map]. now rewrite map_app, join_empty_app, join_empty_cons, IH.
Qed.

(** ** Attributes *)

Section AttrFacts.
Context `{JsNumber}.

Lemma attrsToAst_flat_map (a : Attrs) :
  attrsToAst a = flat_map (keptAttr a) (sortKeys (objectKeys a)).
Proof.
  unfold attrsToAst.
  erewrite fold_left_ext; [apply (fold_left_collect (keptAttr a) _ [])|].
  intros out k. unfold keptAttr.
  destruct (getAttr a k) as [s|n|[]| |]; simpl; now rewrite ?app_nil_r.
Qed.

Lemma attrText_join (l : list (string * AttrValue)) :
  attrText l
  = join EmptyString
      (map (fun kv => match snd kv with
                      | VBoolean true => " " ++ fst kv
                      | v => " " ++ fst kv ++ "=" ++ dq ++ escapeAttr (toStr v) ++ dq
                      end) l).
Proof.
  unfold attrText.
  erewrite fold_left_ext; [apply (fold_left_append _ l EmptyString)|].
  intros s kv. cbv beta.
  destruct (snd kv) as [?|?|[]| |]; reflexivity.
Qed.

(** The attribute text of the node [el] builds is the text of the sorted
    tokens. *)
Lemma attrText_attrsToAst (a : Attrs) :
  attrText (attrsToAst a) = sortedAttrTokens a.
Proof.
  rewrite attrText_join, attrsToAst_flat_map, join_empty_flat_map.
  unfold sortedAttrTokens. f_equal. apply map_ext. intros k.
  unfold keptAttr, attrToken, escapeAttr.
  destruct (getAttr a k) as [s|n|[]| |]; cbn [map snd fst];
    rewrite ?join_empty_cons, ?escapeHtml_once; cbn [join String.concat];
    now rewrite ?append_nil_r.
Qed.


End AttrFacts.

(** ** The order of keys *)

Lemma keyLe_trans (x y z : string) : keyLe x y -> keyLe y z -> keyLe x z.
Proof.
  unfold keyLe, String.leb. intros Hxy Hyz.
  destruct (String.compare x y) eqn:Exy; try discriminate.
  - apply String.compare_eq_iff in Exy. now subst y.
  - destruct (String.compare y z) eqn:Eyz; try discriminate.
    + apply String.compare_eq_iff in Eyz. subst z. now rewrite Exy.
    + apply String_as_OT.cmp_lt in Exy, Eyz.
      pose proof (String_as_OT.lt_trans _ _ _ Exy Eyz) as Hxz.
      apply String_as_OT.cmp_lt in Hxz. unfold String_as_OT.cmp in Hxz.
      now rewrite Hxz.
Qed.

Lemma sortKeys_sorted (keys : list string) : StronglySorted keyLe (sortKeys keys).
Proof.
  unfold sortKeys.
  apply (StringSort.StronglySorted_sort keys).
  intros x y z Hxy Hyz. exact (keyLe_trans x y z Hxy Hyz).
Qed.

Lemma sortKeys_permutation (keys : list string) : Permutation keys (sortKeys keys).
Proof. apply StringSort.Permuted_sort. Qed.

(** Two sorted lists with the same elements are equal. *)
Lemma sorted_permutation_unique (l1 l2 : list string) :
  StronglySorted keyLe l1 -> StronglySorted keyLe l2 -> Permutation l1 l2 ->
  l1 = l2.
Proof.
  intros S1. revert l2.
  induction S1 as [|x l1 S1 IH Hx]; intros l2 S2 P.
  - apply Permutation_nil in P. now subst.
  - destruct S2 as [|y l2 S2 Hy].
    + apply Permutation_sym, Permutation_nil in P. discriminate.
    + assert (x = y) as ->.
      { assert (In x (y :: l2)) as [E|I2]
          by (apply (Permutation_in _ P); now left); [now subst|].
        assert (In y (x :: l1)) as [E|I1]
          by (apply (Permutation_in _ (Permutation_sym P)); now left); [now subst|].
        rewrite Forall_forall in Hx, Hy.
        apply String.leb_antisym; [apply Hx, I1 | apply Hy, I2]. }
      f_equal. apply IH; [exact S2|]. now apply Permutation_cons_inv in P.
Qed.

Lemma sortKeys_of_permutation (k1 k2 : list string) :
  Permutation k1 k2 -> sortKeys k1 = sortKeys k2.
Proof.
  intros P. apply sorted_permutation_unique; try apply sortKeys_sorted.
  eapply Permutation_trans; [apply Permutation_sym, sortKeys_permutation|].
  eapply Permutation_trans; [exact P | apply sortKeys_permutation].
Qed.

Section AttrOrder.
Context `{JsNumber}.

Lemma getAttr_in (a : Attrs) (k : string) (v : AttrValue) :
  NoDup (objectKeys a) -> In (k, v) a -> getAttr a k = v.
Proof.
  unfold getAttr, objectKeys.
  induction a as [|[k' v'] a IH]; intros N I; [contradiction|].
  simpl in *. inversion N as [|? ? Hnot N']; subst.
  destruct (String.eqb_spec k' k) as [->|Hne].
  - destruct I as [E|I]; [now inversion E|].
    exfalso. apply Hnot. now apply (in_map fst) in I.
  - destruct I as [E|I]; [inversion E; contradiction|]. now apply IH.
Qed.




End AttrOrder.

(** ** Tag functions *)

Section ElFacts.
Context `{JsNumber}.

Lemma attrText_attrsAst (at_ : option Attrs) :
  attrText (orEmpty (attrsAst at_)) = attrTokensOf at_.
Proof. destruct at_ as [a|]; [apply attrText_attrsToAst | reflexivity]. Qed.

(** A void tag: the open tag alone, whatever the children. *)
Lemma el_void (tag : string) (at_ : option Attrs) (kids : list Child) :
  isVoidElement tag = true ->
  el tag at_ kids
  = Ok (mkRawHtml ("<" ++ tag ++ attrTokensOf at_ ++ ">")
          (Some (Element tag (attrsAst at_) None (Some true)))).
Proof.
  intros V. unfold el. rewrite V. cbn [bind renderAstMinimized isTrue].
  fold (attrsAst at_). now rewrite attrText_attrsAst.
Qed.

(** Any other tag: the nodes of the children between the open and the close
    tag. *)
Lemma el_non_void (tag : string) (at_ : option Attrs) (kids : list Child) :
  isVoidElement tag = false ->
  el tag at_ kids
  = (nodes <- childrenToAst kids ;;
     Ok (mkRawHtml ("<" ++ tag ++ attrTokensOf at_ ++ ">" ++ inner nodes
                    ++ "</" ++ tag ++ ">")
           (Some (Element tag (attrsAst at_) (Some nodes) None)))).
Proof.
  intros V. unfold el. rewrite V.
  destruct (childrenToAst kids) as [nodes|e]; cbn [bind]; [|reflexivity].
  cbn [renderAstMinimized isTrue]. fold (attrsAst at_).
  now rewrite attrText_attrsAst.
Qed.

Lemma mapResult_app {A B : Type} (f : A -> result B) (xs ys : list A) :
  mapResult f (xs ++ ys)
  = (l1 <- mapResult f xs ;; l2 <- mapResult f ys ;; Ok (l1 ++ l2)%list).
Proof.
  induction xs as [|x xs IH]; simpl.
  - destruct (mapResult f ys); reflexivity.
  - destruct (f x) as [y|e]; cbn [bind]; [|reflexivity].
    rewrite IH. destruct (mapResult f xs) as [l1|e]; cbn [bind]; [|reflexivity].
    destruct (mapResult f ys); reflexivity.
Qed.

Lemma childrenToAst_app (xs ys : list Child) :
  childrenToAst (xs ++ ys)
  = (l1 <- childrenToAst xs ;; l2 <- childrenToAst ys ;; Ok (l1 ++ l2)%list).
Proof. unfold childrenToAst. now rewrite flattenChildren_app, mapResult_app. Qed.

(** The loop of [childrenToAst] throws on the first DOM-like item. *)
Lemma mapResult_childToAst_throw (flat : list FlatChild) :
  (exists n, In (FDomNodeLike n) flat) ->
  mapResult childToAst flat = Throw domNodeError.
Proof.
  intros [n I]. induction flat as [|c flat IH]; [contradiction|].
  simpl. destruct c as [s|r|m]; cbn [childToAst bind]; try reflexivity;
    (destruct I as [E|I]; [discriminate|]); now rewrite (IH I).
Qed.

End ElFacts.

(** ** The test on the first argument *)

Section FirstArgumentFacts.
Context `{JsNumber}.



Lemma getAttr_hasKey (a : Attrs) (k : string) (n : number) :
  getAttr a k = VNumber n -> hasKey k a = true.
Proof.
  unfold getAttr, hasKey, objectKeys. intros G.
  destruct (find (fun kv => String.eqb (fst kv) k) a) as [kv|] eqn:F;
    [|discriminate].
  apply find_some in F. destruct F as [I E].
  apply existsb_exists. exists (fst kv). split; [now apply in_map|].
  now rewrite String.eqb_sym.
Qed.

Lemma elArgs_attrs (tag : string) (a : Attrs) (kids : list Child) :
  isAttrs a = true ->
  elArgs tag (Some (ArgObject a, kids)) = Some (el tag (Some a) kids).
Proof. intros A. unfold elArgs. now rewrite A. Qed.

End FirstArgumentFacts.

(** ** Properties of the tag functions *)

Section TagFunctionProperties.
Context `{JsNumber}.

(** C1 (as the code has it). A call of a void tag function never fails,
    whatever children it is given: the children are not looked at, the node
    has no children, and the serialization is the open tag alone. No
    [VoidElementWithChildren] error exists. *)
Theorem void_tag_ignores_children :
  forall (tag : string) (at_ : option Attrs) (kids : list Child),
    isVoidElement tag = true ->
    el tag at_ kids
    = Ok (mkRawHtml ("<" ++ tag ++ attrTokensOf at_ ++ ">")
            (Some (Element tag (attrsAst at_) None (Some true)))).
Proof. intros tag at_ kids V. now apply el_void. Qed.

(** C10 (as the code has it). For a tag that is not void, a DOM-like object
    among the flattened children makes the call throw the error [Fluent
    server error: DomNodeLike not supported here.]. A void tag does not look
    at its children and returns its node. *)
Theorem dom_child_rejected_by_non_void_tags :
  forall (tag : string) (at_ : option Attrs) (kids : list Child),
    (isVoidElement tag = false ->
     (exists n, In (FDomNodeLike n) (flattenChildren kids)) ->
     el tag at_ kids = Throw domNodeError)
    /\ (isVoidElement tag = true ->
        el tag at_ kids
        = Ok (mkRawHtml ("<" ++ tag ++ attrTokensOf at_ ++ ">")
                (Some (Element tag (attrsAst at_) None (Some true))))).
Proof.
  intros tag at_ kids. split.
  - intros V D. rewrite (el_non_void tag at_ kids V). unfold childrenToAst.
    now rewrite (mapResult_childToAst_throw _ D).
  - intros V. now apply el_void.
Qed.

(** C9. The [RawHtml] a tag-function call returns retains a tree, and its
    cached string is the minimized serialization of that tree; so [render],
    which joins the cached strings, gives what the minimized renderer gives
    on the retained trees. *)
Theorem tag_call_caches_minimized_rendering :
  forall (calls : list (string * option Attrs * list Child)) (rs : list RawHtml),
    mapResult (fun c => el (fst (fst c)) (snd (fst c)) (snd c)) calls = Ok rs ->
    Forall (fun r => exists ast, __ast r = Some ast
                                 /\ __rawHtml r = renderAstMinimized ast) rs
    /\ render (map PRawHtml rs)
       = join EmptyString (map (fun r => renderAstMinimized (astOf r)) rs).
Proof.
  induction calls as [|[[tag at_] kids] calls IH]; intros rs E.
  - inversion E. split; [constructor | reflexivity].
  - cbn [mapResult fst snd] in E.
    destruct (el tag at_ kids) as [r|e] eqn:Er; cbn [bind] in E; [|discriminate].
    destruct (mapResult _ calls) as [rs'|e] eqn:Ers; cbn [bind] in E; [|discriminate].
    inversion E; subst rs. destruct (IH rs' eq_refl) as [F R].
    assert (exists ast, __ast r = Some ast /\ __rawHtml r = renderAstMinimized ast)
      as Hr.
    { unfold el in Er.
      destruct (if isVoidElement tag then _ else _) as [children|e];
        cbn [bind] in Er; [|discriminate].
      inversion Er. eexists. split; reflexivity. }
    split; [now constructor|].
    unfold render in *. cbn [map]. rewrite !join_empty_cons, R.
    destruct Hr as (ast & Ha & Hs). unfold astOf. now rewrite Ha, Hs.
Qed.


End TagFunctionProperties.

(** ** The raw policy *)

Section RawPolicyProperties.
Context `{JsNumber}.

Lemma raw_dev_strict (st : RawPolicy) (html : string) (hint : option string) :
  mode st = Some DevStrict ->
  exists e, raw st html hint = Throw e /\ isRawPolicyViolation e = true.
Proof.
  intros M. unfold raw. rewrite M.
  destruct hint as [[|a h]|]; eexists; split; reflexivity.
Qed.

Lemma policyRun_without_set (st : RawPolicy) (calls : list PolicyCall) :
  Forall (fun c => isSetRawPolicy c = false) calls ->
  policyRun st calls = map (fun c => snd (policyStep st c)) calls.
Proof.
  induction 1 as [|c calls Hc _ IH]; [reflexivity|].
  cbn [policyRun map]. f_equal.
  destruct c; [discriminate | exact IH | exact IH].
Qed.

(** C8. After [setRawPolicy({ mode: dev-strict })], from any state, every
    call of [raw] (with or without a hint) throws the error of the dev-strict
    policy and returns no [RawHtml], for as long as the policy is not set
    again, while every call of [trustedRaw] returns its [RawHtml]; in any
    sequence of calls, whatever the policy, [trustedRaw] returns the same
    value; and under the initial, permissive policy [raw] returns the value
    [trustedRaw] returns. *)
Theorem raw_blocked_by_dev_strict_policy :
  forall (st : RawPolicy) (calls : list PolicyCall),
    Forall (fun c => isSetRawPolicy c = false) calls ->
    Forall2
      (fun c out =>
         match c with
         | CallRaw html hint =>
             exists e, out = Some (Throw e) /\ isRawPolicyViolation e = true
         | CallTrustedRaw html hint => out = Some (Ok (trustedRaw html hint))
         | CallSetRawPolicy _ => True
         end)
      calls (policyRun (setRawPolicy st (WithMode (Some DevStrict))) calls)
    /\ (forall st' calls',
           Forall2
             (fun c out =>
                match c with
                | CallTrustedRaw html hint => out = Some (Ok (trustedRaw html hint))
                | _ => True
                end)
             calls' (policyRun st' calls'))
    /\ (forall html hint, raw initialRawPolicy html hint = Ok (trustedRaw html hint)).
Proof.
  intros st calls F. repeat split.
  - rewrite (policyRun_without_set _ _ F). clear F.
    induction calls as [|c calls IH]; constructor; [|exact IH].
    destruct c as [p|html hint|html hint]; [exact I| |reflexivity].
    destruct (raw_dev_strict (setRawPolicy st (WithMode (Some DevStrict)))
                html hint eq_refl) as (e & E & V).
    exists e. cbn [policyStep snd]. now rewrite E.
  - intros st' calls'. revert st'.
    induction calls' as [|c calls' IH]; intros st'; constructor; [|apply IH].
    destruct c; [exact I | exact I | reflexivity].
Qed.

End RawPolicyProperties.

(** ** Slots *)

Section SlotProperties.
Context `{JsNumber}.

Lemma checkRequired_missing (owner : string) (names : list string)
    (supplied : SlotMap) :
  (exists k, In k names /\ callable supplied k = false) ->
  exists k, In k names /\ callable supplied k = false
            /\ checkRequired owner names supplied = Throw (MissingRequiredSlot k owner).
Proof.
  induction names as [|k names IH]; intros [k0 [I C]]; [contradiction|].
  cbn [checkRequired]. destruct (callable supplied k) eqn:Ck.
  - destruct I as [->|I]; [congruence|].
    destruct IH as (k1 & I1 & C1 & E1); [now exists k0|].
    exists k1. repeat split; [now right | exact C1|].
    unfold callable in Ck.
    destruct (getSlot supplied k) as [[b|t]|]; try discriminate. exact E1.
  - exists k. repeat split; [now left | exact Ck|].
    unfold callable in Ck.
    destruct (getSlot supplied k) as [[b|t]|]; try discriminate; reflexivity.
Qed.

Lemma checkRequired_ok (owner : string) (names : list string) (supplied : SlotMap) :
  (forall k, In k names -> callable supplied k = true) ->
  checkRequired owner names supplied = Ok tt.
Proof.
  induction names as [|k names IH]; intros A; [reflexivity|].
  cbn [checkRequired]. pose proof (A k (or_introl eq_refl)) as Ck.
  unfold callable in Ck.
  destruct (getSlot supplied k) as [[b|t]|]; try discriminate.
  apply IH. intros k' I. apply A. now right.
Qed.

Lemma checkUnknown_throw (owner : string) (spec : SlotSpec) (names : list string) :
  (exists k, In k names /\ declared spec k = false) ->
  exists k, In k names /\ declared spec k = false
            /\ checkUnknown owner spec ThrowOnUnknown names = Throw (UnknownSlot k owner).
Proof.
  induction names as [|k names IH]; intros [k0 [I D]]; [contradiction|].
  cbn [checkUnknown]. destruct (declared spec k) eqn:Dk.
  - destruct I as [->|I]; [congruence|].
    destruct IH as (k1 & I1 & D1 & E1); [now exists k0|].
    exists k1. repeat split; [now right | exact D1 | exact E1].
  - exists k. repeat split; [now left | exact Dk].
Qed.

Lemma required_supplied_or_missing (names : list string) (supplied : SlotMap) :
  (forall k, In k names -> callable supplied k = true)
  \/ (exists k, In k names /\ callable supplied k = false).
Proof.
  induction names as [|k names [A|[k0 [I C]]]].
  - left. intros k [].
  - destruct (callable supplied k) eqn:Ck.
    + left. intros k' [<-|I]; [exact Ck | now apply A].
    + right. exists k. split; [now left | exact Ck].
  - right. exists k0. split; [now right | exact C].
Qed.

Lemma find_region_name (ds : DesignSystem) (name : string) (r : Region) :
  find (fun r => String.eqb (regionName r) name) (dsRegions ds) = Some r ->
  regionName r = name.
Proof. intros F. apply find_some in F. now apply String.eqb_eq. Qed.

Lemma find_layout_name (ds : DesignSystem) (name : string) (l : Layout) :
  find (fun l => String.eqb (layoutName l) name) (dsLayouts ds) = Some l ->
  layoutName l = name.
Proof. intros F. apply find_some in F. now apply String.eqb_eq. Qed.

(** C2. The validation of a slot map against a slot specification: when a
    required name is missing or is not a callable builder, the validation
    fails with [MissingRequiredSlot], naming such a slot and the owner; when
    every required name is supplied as a builder, a supplied name is neither
    required nor optional and the policy of the design system is to throw,
    it fails with [UnknownSlot], naming such a slot and the owner; under that
    policy a supplied name that is neither required nor optional makes the
    validation fail in every case. A region invoked through the region API
    and a layout invoked through [page] fail with the failure of the
    validation of their slots, and the policy of a new design system is to
    throw. *)
Theorem slot_completeness :
  forall (ds : DesignSystem) (owner : string) (spec : SlotSpec)
         (supplied : SlotMap),
    ((exists k, In k (required spec) /\ callable supplied k = false) ->
     exists k, In k (required spec) /\ callable supplied k = false
               /\ validateSlots owner spec (unknownSlotMode ds) supplied
                  = Throw (MissingRequiredSlot k owner))
    /\ ((forall k, In k (required spec) -> callable supplied k = true) ->
        unknownSlotMode ds = ThrowOnUnknown ->
        (exists k, In k (map fst supplied) /\ declared spec k = false) ->
        exists k, In k (map fst supplied) /\ declared spec k = false
                  /\ validateSlots owner spec (unknownSlotMode ds) supplied
                     = Throw (UnknownSlot k owner))
    /\ (unknownSlotMode ds = ThrowOnUnknown ->
        (exists k, In k (map fst supplied) /\ declared spec k = false) ->
        exists e, validateSlots owner spec (unknownSlotMode ds) supplied = Throw e)
    /\ (forall r e,
           find (fun r => String.eqb (regionName r) owner) (dsRegions ds) = Some r ->
           regionSlots r = spec ->
           validateSlots owner spec (unknownSlotMode ds) supplied = Throw e ->
           invokeRegion ds owner supplied = Throw e)
    /\ (forall l e headSlots,
           find (fun l => String.eqb (layoutName l) owner) (dsLayouts ds) = Some l ->
           layoutSlots l = spec ->
           validateSlots owner spec (unknownSlotMode ds) supplied = Throw e ->
           page ds owner supplied headSlots = Throw e)
    /\ (forall name n, unknownSlotMode (createDesignSystem name n) = ThrowOnUnknown).
Proof.
  intros ds owner spec supplied. repeat split.
  - intros M. destruct (checkRequired_missing owner _ supplied M) as (k & I & C & E).
    exists k. repeat split; [exact I | exact C|].
    unfold validateSlots. now rewrite E.
  - intros A P U. destruct (checkUnknown_throw owner spec _ U) as (k & I & D & E).
    exists k. repeat split; [exact I | exact D|].
    unfold validateSlots. rewrite (checkRequired_ok owner _ supplied A), P.
    exact E.
  - intros P U.
    destruct (required_supplied_or_missing (required spec) supplied) as [A|M].
    + destruct (checkUnknown_throw owner spec _ U) as (k & _ & _ & E).
      exists (UnknownSlot k owner). unfold validateSlots.
      rewrite (checkRequired_ok owner _ supplied A), P. exact E.
    + destruct (checkRequired_missing owner _ supplied M) as (k & _ & _ & E).
      exists (MissingRequiredSlot k owner). unfold validateSlots. now rewrite E.
  - intros r e F S V. unfold invokeRegion. rewrite F.
    rewrite (find_region_name ds owner r F), S, V. reflexivity.
  - intros l e headSlots F S V. unfold page. rewrite F.
    rewrite (find_layout_name ds owner l F), S, V. reflexivity.
Qed.

End SlotProperties.

(** ** The head merge *)

Section HeadMergeProperties.
Context `{JsNumber}.
Variable HeadSlotInput : Type.
Variable headSlots : HeadSlotInput -> SlotMap.
Variable defaultInput : HeadSlotInput.

Lemma getSlot_setProp (m : SlotMap) (k k' : string) (v : SlotValue) :
  getSlot (setProp m k v) k' = if String.eqb k k' then Some v else getSlot m k'.
Proof.
  unfold getSlot.
  induction m as [|[k0 v0] m IH]; simpl.
  - destruct (String.eqb k k'); reflexivity.
  - destruct (String.eqb_spec k0 k) as [->|Hne]; simpl.
    + destruct (String.eqb k k'); reflexivity.
    + destruct (String.eqb_spec k0 k') as [->|Hne'].
      * destruct (String.eqb_spec k k') as [->|_]; [contradiction | reflexivity].
      * exact IH.
Qed.

Lemma mergeEntries_untouched (overrides merged : SlotMap) (k : string) :
  (forall v, In (k, v) overrides -> truthy v = false) ->
  getSlot (mergeEntries overrides merged) k = getSlot merged k.
Proof.
  unfold mergeEntries. revert merged.
  induction overrides as [|[k0 v0] overrides IH]; intros merged F; [reflexivity|].
  cbn [fold_left fst snd].
  rewrite IH by (intros v I; apply F; now right).
  destruct (truthy v0) eqn:T; [|reflexivity].
  rewrite getSlot_setProp.
  destruct (String.eqb_spec k0 k) as [->|_]; [|reflexivity].
  rewrite (F v0 (or_introl eq_refl)) in T. discriminate.
Qed.

Lemma mergeEntries_override (overrides merged : SlotMap) (k : string)
    (v : SlotValue) :
  NoDup (map fst overrides) -> In (k, v) overrides -> truthy v = true ->
  getSlot (mergeEntries overrides merged) k = Some v.
Proof.
  revert merged.
  induction overrides as [|[k0 v0] overrides IH]; intros merged N I T;
    [contradiction|].
  inversion N as [|? ? Hnot N']; subst.
  destruct I as [E|I].
  - inversion E; subst k0 v0.
    change (mergeEntries ((k, v) :: overrides) merged)
      with (mergeEntries overrides
              (if truthy v then setProp merged k v else merged)).
    rewrite mergeEntries_untouched.
    + rewrite T, getSlot_setProp, String.eqb_refl. reflexivity.
    + intros v' I'. exfalso. apply Hnot. now apply (in_map fst) in I'.
  - change (mergeEntries ((k0, v0) :: overrides) merged)
      with (mergeEntries overrides
              (if truthy v0 then setProp merged k0 v0 else merged)).
    now apply IH.
Qed.

Lemma mapResult_in {A B : Type} (f : A -> result B) (xs : list A) (ys : list B)
    (x : A) (y : B) :
  mapResult f xs = Ok ys -> In x xs -> f x = Ok y -> In y ys.
Proof.
  revert ys. induction xs as [|x0 xs IH]; intros ys E I Fx; [contradiction|].
  cbn [mapResult] in E.
  destruct (f x0) as [y0|e] eqn:E0; cbn [bind] in E; [|discriminate].
  destruct (mapResult f xs) as [ys'|e]; cbn [bind] in E; [|discriminate].
  inversion E; subst ys. destruct I as [->|I].
  - left. congruence.
  - right. now apply (IH ys').
Qed.

(** A builder the merged head holds under a declared name contributes its
    output to the head. *)
Lemma headChildren_in (ds : DesignSystem) (ctx : RenderCtx) (spec : SlotSpec)
    (supplied : SlotMap) (children : list Child) (k : string) (b : SlotBuilder)
    (r : RawHtml) :
  headChildren ds ctx (Some spec) supplied = Ok children ->
  In k (required spec ++ optional spec) ->
  getSlot supplied k = Some (SlotFn b) ->
  b ctx = Ok r ->
  In (CRawHtml r) children.
Proof.
  unfold headChildren, headSlotOutputs. intros E I G B.
  destruct (mapResult uaTag _) as [uaTags|e]; cbn [bind] in E; [|discriminate].
  destruct (mapResult _ (flat_map _ _)) as [outs|e] eqn:Eo; cbn [bind] in E;
    [|discriminate].
  inversion E. apply in_or_app. right. apply in_map.
  apply (mapResult_in _ _ _ b r Eo); [|exact B].
  apply in_flat_map. exists k. split; [exact I|].
  unfold resolve. rewrite G. now left.
Qed.

(** C6. The head slots [naturalDesignSystem] passes to [page] are the merge
    of its defaults with what the caller supplies: a field the caller supplies
    (with a truthy value) overrides the default of that field; a field the
    caller leaves unset keeps its default; without head slots from the caller
    the defaults stand; and in the head that [page] emits for the merged
    slots, the output of a default builder of one field and the output of a
    caller's builder of another field are both present. *)
Theorem head_merge_override_wins_default_fills_gaps :
  forall (input : HeadSlotInput),
    NoDup (map fst (headSlots input)) ->
    (forall k v,
        In (k, v) (headSlots input) -> truthy v = true ->
        getSlot (mergeHead headSlots defaultInput (Some input)) k = Some v)
    /\ (forall k,
           (forall v, In (k, v) (headSlots input) -> truthy v = false) ->
           getSlot (mergeHead headSlots defaultInput (Some input)) k
           = getSlot (defaultHead headSlots defaultInput) k)
    /\ mergeHead headSlots defaultInput None = defaultHead headSlots defaultInput
    /\ (forall ds name supplied,
           naturalPage headSlots defaultInput ds name supplied (Some input)
           = page ds name supplied (mergeHead headSlots defaultInput (Some input)))
    /\ (forall ds ctx spec children kd kc d c rd rc,
           headChildren ds ctx (Some spec)
             (mergeHead headSlots defaultInput (Some input)) = Ok children ->
           In kd (required spec ++ optional spec) ->
           In kc (required spec ++ optional spec) ->
           getSlot (defaultHead headSlots defaultInput) kd = Some (SlotFn d) ->
           (forall v, In (kd, v) (headSlots input) -> truthy v = false) ->
           In (kc, SlotFn c) (headSlots input) ->
           d ctx = Ok rd -> c ctx = Ok rc ->
           In (CRawHtml rd) children /\ In (CRawHtml rc) children).
Proof.
  intros input N.
  assert (forall k v,
             In (k, v) (headSlots input) -> truthy v = true ->
             getSlot (mergeHead headSlots defaultInput (Some input)) k = Some v) as O.
  { intros k v I T. now apply (mergeEntries_override (headSlots input)). }
  assert (forall k,
             (forall v, In (k, v) (headSlots input) -> truthy v = false) ->
             getSlot (mergeHead headSlots defaultInput (Some input)) k
             = getSlot (defaultHead headSlots defaultInput) k) as D.
  { intros k F. now apply (mergeEntries_untouched (headSlots input)). }
  split; [exact O|]. split; [exact D|]. split; [reflexivity|].
  split; [reflexivity|].
  intros ds ctx spec children kd kc d c rd rc E Id Ic Gd Fd Icaller Bd Bc. split.
  - apply (headChildren_in ds ctx spec _ children kd d rd E Id); [|exact Bd].
    now rewrite (D kd Fd).
  - apply (headChildren_in ds ctx spec _ children kc c rc E Ic); [|exact Bc].
    now apply O.
Qed.

End HeadMergeProperties.

(** ** Concrete calls *)

(** C1, at [br("x")]: the call returns the node of [<br>]; it does not fail,
    and the child is dropped. *)
Lemma br_with_a_child_returns_its_node :
  el "br" None [CString "x"]
  = Ok (mkRawHtml "<br>" (Some (Element "br" None None (Some true)))).
Proof. reflexivity. Qed.

(** [img] with attributes and two children: the open tag alone. *)
Lemma void_tag_ignores_children_witness :
  isVoidElement "img" = true
  /\ el "img" (Some [("src", VString "a.png"); ("alt", VString "A")])
       [CString "x"; CArray [CNumber (int 1)]]
     = Ok (mkRawHtml
             ("<img alt=" ++ quoted "A" ++ " src=" ++ quoted "a.png" ++ ">")
             (Some (Element "img"
                      (Some [("alt", VString "A"); ("src", VString "a.png")])
                      None (Some true)))).
Proof.
  split; [reflexivity|].
  exact (void_tag_ignores_children "img"
           (Some [("src", VString "a.png"); ("alt", VString "A")])
           [CString "x"; CArray [CNumber (int 1)]] eq_refl).
Defined.

(** Every name of [VOID_ELEMENTS] is a void element, in any case of
    letters used here. *)
Example void_elements_are_void :
  forallb isVoidElement VOID_ELEMENTS = true /\ isVoidElement "BR" = true
  /\ isVoidElement "div" = false.
Proof. repeat split. Qed.

(** C10, at [img({ nodeType: 1 })]: a void tag returns its node and throws
    nothing for a DOM-like child. *)
Lemma img_with_a_dom_child_returns_its_node :
  el "img" None [CArray [CDomNodeLike (int 1)]]
  = Ok (mkRawHtml "<img>" (Some (Element "img" None None (Some true)))).
Proof. reflexivity. Qed.

(** [div] with a DOM-like object that a builder emits inside an array, and
    [img] with the same children. *)
Lemma dom_child_rejected_witness :
  isVoidElement "div" = false
  /\ In (FDomNodeLike (int 1))
       (flattenChildren [CString "a"; CBuilder [[CArray [CDomNodeLike (int 1)]]]])
  /\ el "div" None [CString "a"; CBuilder [[CArray [CDomNodeLike (int 1)]]]]
     = Throw (Error "Fluent server error: DomNodeLike not supported here.")
  /\ isVoidElement "img" = true
  /\ el "img" None [CString "a"; CBuilder [[CArray [CDomNodeLike (int 1)]]]]
     = Ok (mkRawHtml "<img>" (Some (Element "img" None None (Some true)))).
Proof.
  split; [reflexivity|]. split; [right; left; reflexivity|]. split.
  - apply (proj1 (dom_child_rejected_by_non_void_tags "div" None
                    [CString "a"; CBuilder [[CArray [CDomNodeLike (int 1)]]]])).
    + reflexivity.
    + exists (int 1). right. left. reflexivity.
  - split; [reflexivity|].
    exact (proj2 (dom_child_rejected_by_non_void_tags "img" None
                    [CString "a"; CBuilder [[CArray [CDomNodeLike (int 1)]]]])
             eq_refl).
Defined.

(** [render] of a [div] and a [br]. *)
Lemma tag_call_caches_minimized_rendering_witness :
  exists rs,
    mapResult (fun c => el (fst (fst c)) (snd (fst c)) (snd c))
      [("div", Some [("id", VString "a&b")], [CString "1 < 2"; CNumber (int 3)]);
       ("br", None, [])]
    = Ok rs
    /\ render (map PRawHtml rs)
       = "<div id=" ++ quoted "a&amp;b" ++ ">1 &lt; 23</div><br>"
    /\ render (map PRawHtml rs)
       = join EmptyString (map (fun r => renderAstMinimized (astOf r)) rs).
Proof.
  eexists. split; [reflexivity|]. split; [reflexivity|].
  apply (tag_call_caches_minimized_rendering
           [("div", Some [("id", VString "a&b")], [CString "1 < 2"; CNumber (int 3)]);
            ("br", None, [])]).
  reflexivity.
Defined.



(** [input({ disabled: true, hidden: false, value: "x" })]: the bare name
    for [true], nothing for [false], the quoted value otherwise. *)
Example input_boolean_attributes :
  elArgs "input"
    (Some (ArgObject [("disabled", VBoolean true); ("hidden", VBoolean false);
                      ("value", VString "x")], []))
  = Some (Ok (mkRawHtml ("<input disabled value=" ++ quoted "x" ++ ">")
                (Some (Element "input"
                         (Some [("disabled", VBoolean true); ("value", VString "x")])
                         None (Some true))))).
Proof. reflexivity. Qed.

(** Three calls after [setRawPolicy({ mode: dev-strict })] on the initial
    state. *)
Lemma raw_blocked_by_dev_strict_policy_witness :
  Forall (fun c => isSetRawPolicy c = false)
    [CallRaw "<b>" None; CallTrustedRaw "<i>" None; CallRaw "<u>" (Some "why")]
  /\ policyRun (setRawPolicy initialRawPolicy (WithMode (Some DevStrict)))
       [CallRaw "<b>" None; CallTrustedRaw "<i>" None; CallRaw "<u>" (Some "why")]
     = [Some (Throw (Error "raw() is blocked by dev-strict policy"));
        Some (Ok (trustedRaw "<i>" None));
        Some (Throw (Error "raw() is blocked by dev-strict policy: why"))]
  /\ Forall2
       (fun c out =>
          match c with
          | CallRaw html hint =>
              exists e, out = Some (Throw e) /\ isRawPolicyViolation e = true
          | CallTrustedRaw html hint => out = Some (Ok (trustedRaw html hint))
          | CallSetRawPolicy _ => True
          end)
       [CallRaw "<b>" None; CallTrustedRaw "<i>" None; CallRaw "<u>" (Some "why")]
       (policyRun (setRawPolicy initialRawPolicy (WithMode (Some DevStrict)))
          [CallRaw "<b>" None; CallTrustedRaw "<i>" None; CallRaw "<u>" (Some "why")]).
Proof.
  assert (Forall (fun c => isSetRawPolicy c = false)
            [CallRaw "<b>" None; CallTrustedRaw "<i>" None;
             CallRaw "<u>" (Some "why")]) as F
    by (repeat constructor).
  split; [exact F|]. split; [reflexivity|].
  exact (proj1 (raw_blocked_by_dev_strict_policy initialRawPolicy _ F)).
Defined.

(** The slot completeness law of the specification, at a region [Main] that
    requires [a] and [b]: with [a] alone the slot [b] is missing; with [a],
    [b] and [c] the slot [c] is unknown. *)
Lemma slot_completeness_witness :
  (exists k,
      In k ["a"; "b"] /\ callable [("a", textSlot "A")] k = false
      /\ validateSlots "Main" (slots ["a"; "b"] [])
           (unknownSlotMode (createDesignSystem "ds" starterNaming))
           [("a", textSlot "A")]
         = Throw (MissingRequiredSlot k "Main"))
  /\ validateSlots "Main" (slots ["a"; "b"] []) ThrowOnUnknown [("a", textSlot "A")]
     = Throw (MissingRequiredSlot "b" "Main")
  /\ validateSlots "Main" (slots ["a"; "b"] []) ThrowOnUnknown
       [("a", textSlot "A"); ("b", textSlot "B"); ("c", textSlot "C")]
     = Throw (UnknownSlot "c" "Main")
  /\ validateSlots "Main" (slots ["a"; "b"] []) ThrowOnUnknown
       [("a", textSlot "A"); ("b", NotCallable true)]
     = Throw (MissingRequiredSlot "b" "Main")
  /\ (ds <- starterDesignSystem "starter-ds" ;; page ds "Starter" titleOnly [])
     = Throw (MissingRequiredSlot "content" "Starter").
Proof.
  split; [|repeat split].
  apply (proj1 (slot_completeness (createDesignSystem "ds" starterNaming) "Main"
                  (slots ["a"; "b"] []) [("a", textSlot "A")])).
  exists "b". split; [right; left; reflexivity | reflexivity].
Defined.

(** The head merge with the slot maps themselves as the input of the caller
    ([headSlots] the identity): the default holds a style, the caller supplies
    a title, and the emitted head holds the link of the design system, the
    style and the title. *)
Lemma head_merge_witness :
  NoDup (map fst [("title", SlotFn (headElement "title" "Docs"))])
  /\ getSlot
       (mergeHead (fun m : SlotMap => m)
          [("styles", SlotFn (headElement "style" "html {}"))]
          (Some [("title", SlotFn (headElement "title" "Docs"))]))
       "title"
     = Some (SlotFn (headElement "title" "Docs"))
  /\ getSlot
       (mergeHead (fun m : SlotMap => m)
          [("styles", SlotFn (headElement "style" "html {}"))]
          (Some [("title", SlotFn (headElement "title" "Docs"))]))
       "styles"
     = Some (SlotFn (headElement "style" "html {}"))
  /\ (ds <- starterDesignSystem "starter-ds" ;;
      inHead <- headChildren ds (ctxFor starterNaming "layout")
                  (Some (slots [] ["title"; "styles"]))
                  (mergeHead (fun m : SlotMap => m)
                     [("styles", SlotFn (headElement "style" "html {}"))]
                     (Some [("title", SlotFn (headElement "title" "Docs"))])) ;;
      h <- tag "head" None inHead ;;
      Ok (__rawHtml h))
     = Ok ("<head><link href=" ++ quoted picoCssUrl ++ " rel=" ++ quoted "stylesheet"
           ++ "><title>Docs</title><style>html {}</style></head>").
Proof.
  assert (NoDup (map fst [("title", SlotFn (headElement "title" "Docs"))])) as N
    by (repeat constructor; simpl; intuition).
  destruct (head_merge_override_wins_default_fills_gaps SlotMap (fun m => m)
              [("styles", SlotFn (headElement "style" "html {}"))]
              [("title", SlotFn (headElement "title" "Docs"))] N)
    as (O & D & _).
  split; [exact N|]. split; [|split].
  - apply O; [left; reflexivity | reflexivity].
  - rewrite D; [reflexivity|].
    intros v [E|[]]. discriminate.
  - reflexivity.
Defined.

(** C5, evaluated. The page of [fluent-ds-starter_test.ts], pretty printed
    and trimmed, is the document of the test but for the heading: the title
    slot returns trusted raw HTML, a raw node, and the pretty renderer puts on
    one line only an element whose single child is a text node; so the
    heading takes three lines, and the string differs from the one the test
    expects. The same shows on the heading alone. *)
Theorem starter_page_heading_takes_three_lines :
  starterTestPage
  = Ok (starterDocument
          ["        <h1>"; "          Starter DS"; "        </h1>"])
  /\ String.eqb
       (starterDocument ["        <h1>"; "          Starter DS"; "        </h1>"])
       starterFixture = false
  /\ (h <- tag "h1" None [CRawHtml (trustedRaw "Starter DS" None)] ;;
      Ok (renderPretty [PRawHtml h]))
     = Ok ("<h1>" ++ nl ++ "  Starter DS" ++ nl ++ "</h1>" ++ nl)
  /\ (h <- tag "h1" None [CString "Starter DS"] ;;
      Ok (renderPretty [PRawHtml h]))
     = Ok ("<h1>Starter DS</h1>" ++ nl).
Proof. repeat split; vm_compute; reflexivity. Qed.

(** * Further properties of the code *)

(** ** Escaping *)

Lemma includes_app (c : ascii) (s1 s2 : string) :
  includes c (s1 ++ s2) = includes c s1 || includes c s2.
Proof.
  induction s1 as [|a s1 IH]; simpl; [reflexivity|].
  now rewrite IH, orb_assoc.
Qed.

Lemma includes_mapChars (c : ascii) (f : ascii -> string) (s : string) :
  (forall a, includes c (f a) = false) -> includes c (mapChars f s) = false.
Proof.
  intros F. induction s as [|a s IH]; simpl; [reflexivity|].
  now rewrite includes_app, F, IH.
Qed.

Lemma escapeChar_no_markup (a : ascii) :
  includes "<"%char (escapeChar a) = false
  /\ includes ">"%char (escapeChar a) = false
  /\ includes "034"%char (escapeChar a) = false
  /\ includes "'"%char (escapeChar a) = false.
Proof. destruct a as [[] [] [] [] [] [] [] []]; repeat split. Qed.

Lemma escapeHtml_no_markup (s : string) :
  includes "<"%char (escapeHtml s) = false
  /\ includes ">"%char (escapeHtml s) = false
  /\ includes "034"%char (escapeHtml s) = false
  /\ includes "'"%char (escapeHtml s) = false.
Proof.
  rewrite escapeHtml_once. unfold escapeOnce.
  repeat split; apply includes_mapChars; intros a; apply escapeChar_no_markup.
Qed.

Lemma escapeHtml_app (s1 s2 : string) :
  escapeHtml (s1 ++ s2) = escapeHtml s1 ++ escapeHtml s2.
Proof. rewrite !escapeHtml_once. apply mapChars_app. Qed.

Lemma escapeChar_prefix_free (a b : ascii) (x y : string) :
  escapeChar a ++ x = escapeChar b ++ y -> a = b /\ x = y.
Proof.
  unfold escapeChar.
  repeat match goal with
         | |- context [Ascii.eqb ?u ?v] => destruct (Ascii.eqb_spec u v)
         end;
    subst; cbn [append]; intros E; inversion E; subst;
    try (split; reflexivity); try congruence; try contradiction.
Qed.

Lemma escapeChar_not_empty (a : ascii) (x : string) :
  escapeChar a ++ x <> EmptyString.
Proof.
  unfold escapeChar.
  repeat match goal with
         | |- context [Ascii.eqb ?u ?v] => destruct (Ascii.eqb u v)
         end; discriminate.
Qed.

Section EscapingProperties.
Context `{JsNumber}.

(** X1. What [escapeHtml] returns holds none of the characters [<], [>],
    double quote and single quote; so the serialization of a text node holds
    none of them, and the serialization of a comment holds [<] and [>] only in
    its delimiters: the text of a comment cannot end the comment. *)
Theorem escaped_text_holds_no_markup :
  forall (s : string),
    (includes "<"%char (escapeHtml s) = false
     /\ includes ">"%char (escapeHtml s) = false
     /\ includes "034"%char (escapeHtml s) = false
     /\ includes "'"%char (escapeHtml s) = false)
    /\ (includes "<"%char (renderAstMinimized (Text s)) = false
        /\ includes ">"%char (renderAstMinimized (Text s)) = false)
    /\ (exists body,
           __rawHtml (comment s) = "<!--" ++ body ++ "-->"
           /\ includes "<"%char body = false /\ includes ">"%char body = false).
Proof.
  intros s. pose proof (escapeHtml_no_markup s) as (L & G & Q & A).
  repeat split; try assumption.
  exists (escapeHtml s). repeat split; assumption.
Qed.

End EscapingProperties.

(** X2. [escapeHtml] loses nothing: two texts with the same escaped form are
    the same text. *)
Theorem escapeHtml_injective :
  forall (s1 s2 : string), escapeHtml s1 = escapeHtml s2 -> s1 = s2.
Proof.
  intros s1 s2. rewrite !escapeHtml_once. unfold escapeOnce. revert s2.
  induction s1 as [|a s1 IH]; intros [|b s2] E; simpl in E.
  - reflexivity.
  - symmetry in E. now apply escapeChar_not_empty in E.
  - now apply escapeChar_not_empty in E.
  - apply escapeChar_prefix_free in E. destruct E as [-> E].
    f_equal. now apply IH.
Qed.

Lemma escapeHtml_injective_witness : "a < b & c" = "a < b & c".
Proof. apply (escapeHtml_injective "a < b & c" "a < b & c"). reflexivity. Defined.

(** X3. [escapeHtml] works code unit by code unit: escaping a concatenation
    is concatenating the escaped parts, and a text without any of the five
    characters is returned as it is. *)
Theorem escapeHtml_distributes_and_keeps_clean_text :
  forall (s1 s2 : string),
    escapeHtml (s1 ++ s2) = escapeHtml s1 ++ escapeHtml s2
    /\ (isClean s1 = true -> escapeHtml s1 = s1).
Proof.
  intros s1 s2. split; [apply escapeHtml_app|].
  rewrite escapeHtml_once. unfold escapeOnce.
  induction s1 as [|a s1 IH]; simpl; [reflexivity|].
  intros C. apply andb_prop in C. destruct C as [Ca Cs].
  rewrite (IH Cs). unfold escapeChar.
  apply negb_true_iff in Ca.
  repeat (apply orb_false_elim in Ca; destruct Ca as [Ca ?]).
  repeat match goal with
         | E : Ascii.eqb _ _ = false |- _ => rewrite E; clear E
         end.
  reflexivity.
Qed.

Lemma escapeHtml_keeps_clean_text_witness :
  isClean "plain text" = true /\ escapeHtml "plain text" = "plain text".
Proof.
  split; [reflexivity|].
  apply (proj2 (escapeHtml_distributes_and_keeps_clean_text "plain text" EmptyString)).
  reflexivity.
Defined.

(** ** Objects as association lists *)

Lemma find_key_in {V : Type} (l : list (string * V)) (k : string) (v : V) :
  NoDup (map fst l) -> In (k, v) l ->
  find (fun kv => String.eqb (fst kv) k) l = Some (k, v).
Proof.
  induction l as [|[k' v'] l IH]; intros N I; [contradiction|].
  simpl in *. inversion N as [|? ? Hnot N']; subst.
  destruct (String.eqb_spec k' k) as [->|Hne].
  - destruct I as [E|I]; [now inversion E|].
    exfalso. apply Hnot. now apply (in_map fst) in I.
  - destruct I as [E|I]; [inversion E; contradiction|]. now apply IH.
Qed.

Lemma find_key_not_in {V : Type} (l : list (string * V)) (k : string) :
  ~ In k (map fst l) -> find (fun kv => String.eqb (fst kv) k) l = None.
Proof.
  induction l as [|[k' v'] l IH]; intros N; [reflexivity|].
  simpl in *. destruct (String.eqb_spec k' k) as [->|Hne].
  - exfalso. apply N. now left.
  - apply IH. intros I. apply N. now right.
Qed.

Lemma find_key_permutation {V : Type} (l l' : list (string * V)) (k : string) :
  NoDup (map fst l) -> Permutation l l' ->
  find (fun kv => String.eqb (fst kv) k) l
  = find (fun kv => String.eqb (fst kv) k) l'.
Proof.
  intros N P.
  assert (Permutation (map fst l) (map fst l')) as PK by (now apply Permutation_map).
  assert (NoDup (map fst l')) as N' by (now apply (Permutation_NoDup PK)).
  destruct (in_dec string_dec k (map fst l)) as [I|NI].
  - apply in_map_iff in I. destruct I as [[k0 v] [E I]]. simpl in E. subst k0.
    rewrite (find_key_in l k v N I).
    symmetry. apply find_key_in; [exact N'|]. now apply (Permutation_in _ P).
  - rewrite (find_key_not_in l k NI). symmetry. apply find_key_not_in.
    intros I'. apply NI. now apply (Permutation_in _ (Permutation_sym PK)).
Qed.

Lemma StronglySorted_filter {A : Type} (R : A -> A -> Prop) (f : A -> bool)
    (l : list A) :
  StronglySorted R l -> StronglySorted R (filter f l).
Proof.
  induction 1 as [|x l S IH F]; simpl; [constructor|].
  destruct (f x); [|exact IH].
  constructor; [exact IH|].
  rewrite Forall_forall in *. intros y I. apply F.
  now apply filter_In in I.
Qed.

Lemma flat_map_singletons {A B : Type} (f : A -> list B) (g : B -> A) (l : list B) :
  (forall x, In x l -> f (g x) = [x]) -> flat_map f (map g l) = l.
Proof.
  induction l as [|x l IH]; intros F; [reflexivity|].
  cbn [map flat_map]. rewrite (F x (or_introl eq_refl)). cbn [app].
  f_equal. apply IH. intros y I. apply F. now right.
Qed.

(** ** The attribute list of a node *)

Section AttrNormalForm.
Context `{JsNumber}.

Lemma keys_of_kept (a : Attrs) (l : list string) :
  map fst (flat_map (keptAttr a) l) = filter (fun k => keptValue (getAttr a k)) l.
Proof.
  induction l as [|k l IH]; [reflexivity|].
  cbn [flat_map filter]. rewrite map_app, IH. unfold keptAttr, keptValue.
  destruct (getAttr a k) as [?|?|[]| |]; reflexivity.
Qed.

Lemma in_attrsToAst (a : Attrs) (k : string) (v : AttrValue) :
  NoDup (objectKeys a) ->
  In (k, v) (attrsToAst a) <-> In (k, v) a /\ keptValue v = true.
Proof.
  intros N. rewrite attrsToAst_flat_map, in_flat_map. split.
  - intros (k0 & I0 & Ik).
    assert (k0 = k /\ v = getAttr a k0 /\ keptValue v = true) as (-> & -> & K).
    { unfold keptAttr in Ik.
      destruct (getAttr a k0) as [?|?|[]| |] eqn:G; simpl in Ik;
        try contradiction; destruct Ik as [E|[]]; inversion E; subst; auto. }
    split; [|exact K].
    apply (Permutation_in _ (Permutation_sym (sortKeys_permutation _))) in I0.
    apply in_map_iff in I0. destruct I0 as [[k1 v1] [E I1]]. simpl in E. subst k1.
    now rewrite (getAttr_in a k v1 N I1).
  - intros [I K]. exists k. split.
    + apply (Permutation_in _ (sortKeys_permutation _)).
      now apply (in_map fst) in I.
    + unfold keptAttr. rewrite (getAttr_in a k v N I).
      destruct v as [?|?|[]| |]; try discriminate; now left.
Qed.

(** X4. The attribute list [attrsToAst] stores in a node is in normal form:
    its keys are sorted and distinct, it holds exactly the entries of the
    object whose value is not [null], [undefined] or [false], and normalizing
    it again changes nothing. *)
Theorem attrsToAst_normal_form :
  forall (a : Attrs),
    NoDup (objectKeys a) ->
    StronglySorted keyLe (objectKeys (attrsToAst a))
    /\ NoDup (objectKeys (attrsToAst a))
    /\ (forall k v, In (k, v) (attrsToAst a) <-> In (k, v) a /\ keptValue v = true)
    /\ attrsToAst (attrsToAst a) = attrsToAst a.
Proof.
  intros a N.
  assert (StronglySorted keyLe (objectKeys (attrsToAst a))) as S.
  { unfold objectKeys. rewrite attrsToAst_flat_map, keys_of_kept.
    apply StronglySorted_filter, sortKeys_sorted. }
  assert (NoDup (objectKeys (attrsToAst a))) as N'.
  { unfold objectKeys. rewrite attrsToAst_flat_map, keys_of_kept.
    apply NoDup_filter.
    apply (Permutation_NoDup (sortKeys_permutation _)). exact N. }
  split; [exact S|]. split; [exact N'|].
  split; [intros k v; now apply in_attrsToAst|].
  rewrite (attrsToAst_flat_map (attrsToAst a)).
  rewrite (sorted_permutation_unique (sortKeys (objectKeys (attrsToAst a)))
             (objectKeys (attrsToAst a)));
    [|apply sortKeys_sorted | exact S
     | apply Permutation_sym, sortKeys_permutation].
  apply flat_map_singletons. intros [k v] I.
  unfold keptAttr. cbn [fst]. rewrite (getAttr_in _ k v N' I).
  apply (in_attrsToAst a k v N) in I. destruct I as [_ K].
  destruct v as [?|?|[]| |]; try discriminate; reflexivity.
Qed.

End AttrNormalForm.

Lemma attrsToAst_normal_form_witness :
  NoDup (objectKeys [("z", VString "3"); ("hidden", VBoolean false);
                     ("a", VNumber (int 1)); ("m", VNull)])
  /\ attrsToAst [("z", VString "3"); ("hidden", VBoolean false);
                 ("a", VNumber (int 1)); ("m", VNull)]
     = [("a", VNumber (int 1)); ("z", VString "3")]
  /\ attrsToAst
       (attrsToAst [("z", VString "3"); ("hidden", VBoolean false);
                    ("a", VNumber (int 1)); ("m", VNull)])
     = attrsToAst [("z", VString "3"); ("hidden", VBoolean false);
                   ("a", VNumber (int 1)); ("m", VNull)].
Proof.
  assert (NoDup (objectKeys [("z", VString "3"); ("hidden", VBoolean false);
                             ("a", VNumber (int 1)); ("m", VNull)])) as N.
  { repeat constructor; simpl; intuition discriminate. }
  split; [exact N|]. split; [reflexivity|].
  apply (attrsToAst_normal_form _ N).
Defined.

(** ** attrs, styleText *)

Section AttrsHelperProperties.
Context `{JsNumber}.

Lemma getAttr_setAttr (o : Attrs) (k k' : string) (v : AttrValue) :
  getAttr (setAttr o k v) k' = if String.eqb k k' then v else getAttr o k'.
Proof.
  unfold getAttr.
  induction o as [|[k0 v0] o IH]; simpl.
  - destruct (String.eqb k k'); reflexivity.
  - destruct (String.eqb_spec k0 k) as [->|Hne]; simpl.
    + destruct (String.eqb k k'); reflexivity.
    + destruct (String.eqb_spec k0 k') as [->|Hne'].
      * destruct (String.eqb_spec k k') as [->|_]; [contradiction | reflexivity].
      * exact IH.
Qed.

Lemma in_keys_setAttr (o : Attrs) (k k' : string) (v : AttrValue) :
  In k' (objectKeys (setAttr o k v)) <-> k' = k \/ In k' (objectKeys o).
Proof.
  unfold objectKeys. induction o as [|[k0 v0] o IH]; simpl.
  - intuition.
  - destruct (String.eqb_spec k0 k) as [->|Hne]; simpl; [intuition|].
    rewrite IH. intuition.
Qed.

Lemma NoDup_setAttr (o : Attrs) (k : string) (v : AttrValue) :
  NoDup (objectKeys o) -> NoDup (objectKeys (setAttr o k v)).
Proof.
  unfold objectKeys. induction o as [|[k0 v0] o IH]; simpl; intros N.
  - constructor; [intros [] | constructor].
  - inversion N as [|? ? Hnot N']; subst.
    destruct (String.eqb_spec k0 k) as [->|Hne]; simpl.
    + now constructor.
    + constructor; [|now apply IH].
      intros I. apply (in_keys_setAttr o k k0 v) in I.
      destruct I as [E|I]; [now subst | contradiction].
Qed.

(** The loop of [attrs] over the entries of one part. *)
Lemma setAll_NoDup (p o : Attrs) :
  NoDup (objectKeys o) ->
  NoDup (objectKeys (fold_left (fun o kv => setAttr o (fst kv) (snd kv)) p o)).
Proof.
  revert o. induction p as [|[k v] p IH]; intros o N; [exact N|].
  cbn [fold_left fst snd]. apply IH. now apply NoDup_setAttr.
Qed.

Lemma setAll_untouched (p o : Attrs) (k : string) :
  ~ In k (objectKeys p) ->
  getAttr (fold_left (fun o kv => setAttr o (fst kv) (snd kv)) p o) k = getAttr o k.
Proof.
  revert o. induction p as [|[k0 v0] p IH]; intros o N; [reflexivity|].
  cbn [fold_left fst snd]. rewrite IH by (intros I; apply N; now right).
  rewrite getAttr_setAttr.
  destruct (String.eqb_spec k0 k) as [->|_]; [|reflexivity].
  exfalso. apply N. now left.
Qed.

Lemma setAll_in (p o : Attrs) (k : string) (v : AttrValue) :
  NoDup (objectKeys p) -> In (k, v) p ->
  getAttr (fold_left (fun o kv => setAttr o (fst kv) (snd kv)) p o) k = v.
Proof.
  revert o. induction p as [|[k0 v0] p IH]; intros o N I; [contradiction|].
  inversion N as [|? ? Hnot N']; subst. cbn [fold_left fst snd].
  destruct I as [E|I].
  - inversion E; subst k0 v0.
    rewrite setAll_untouched by exact Hnot.
    now rewrite getAttr_setAttr, String.eqb_refl.
  - now apply IH.
Qed.

Lemma attrs_NoDup_from (parts : list (option Attrs)) (o : Attrs) :
  NoDup (objectKeys o) ->
  NoDup (objectKeys
           (fold_left
              (fun out p =>
                 match p with
                 | None => out
                 | Some a => fold_left (fun o kv => setAttr o (fst kv) (snd kv)) a out
                 end) parts o)).
Proof.
  revert o. induction parts as [|[a|] parts IH]; intros o N; cbn [fold_left].
  - exact N.
  - apply IH. now apply setAll_NoDup.
  - now apply IH.
Qed.

(** X5. [attrs(...parts)] merges attribute objects from left to right: the
    result has distinct keys; the value of a key is the one of the last part
    that has the key (also when that value is [null], [undefined] or [false],
    which then removes the attribute from the element), and otherwise the one
    merged so far; a part that is [null], [undefined] or [false] changes
    nothing. *)
Theorem attrs_later_part_wins :
  forall (parts : list (option Attrs)) (p : Attrs),
    NoDup (objectKeys p) ->
    NoDup (objectKeys (attrs (parts ++ [Some p])))
    /\ (forall k v, In (k, v) p -> getAttr (attrs (parts ++ [Some p])) k = v)
    /\ (forall k, ~ In k (objectKeys p) ->
                  getAttr (attrs (parts ++ [Some p])) k = getAttr (attrs parts) k)
    /\ attrs (parts ++ [None]) = attrs parts
    /\ NoDup (objectKeys (attrs parts)).
Proof.
  intros parts p N. unfold attrs. rewrite !fold_left_app. cbn [fold_left].
  repeat split.
  - apply setAll_NoDup, attrs_NoDup_from. constructor.
  - intros k v I. now apply setAll_in.
  - intros k NI. now apply setAll_untouched.
  - apply attrs_NoDup_from. constructor.
Qed.

Lemma styleText_join (style : list (string * StyleValue)) :
  styleText style
  = join EmptyString (map (styleDecl style) (sortKeys (map fst style))).
Proof.
  unfold styleText.
  erewrite fold_left_ext;
    [apply (fold_left_append (styleDecl style) _ EmptyString)|].
  intros s k. unfold styleDecl. cbv beta.
  destruct (getStyle style k); rewrite ?append_nil_r; reflexivity.
Qed.

Lemma toKebab_no_capital (k : string) : hasUpperAZ (toKebab k) = false.
Proof.
  induction k as [|a k IH]; [reflexivity|].
  cbn [toKebab]. destruct (isUpperAZ a) eqn:U; cbn [append hasUpperAZ].
  - rewrite IH.
    revert U. destruct a as [[] [] [] [] [] [] [] []]; try discriminate; reflexivity.
  - now rewrite U, IH.
Qed.

(** X7. [styleText] writes the declarations in the sorted order of the keys
    of the style object, whatever the order of insertion; a key whose value is
    [null], [undefined] or [false] writes nothing; and the property names it
    writes hold no capital letter A-Z. *)
Theorem styleText_sorted_and_kebab :
  forall (style style' : list (string * StyleValue)),
    NoDup (map fst style) ->
    Permutation style style' ->
    styleText style' = styleText style
    /\ styleText style
       = join EmptyString (map (styleDecl style) (sortKeys (map fst style)))
    /\ (forall k, hasUpperAZ (toKebab k) = false).
Proof.
  intros style style' N P. split; [|split].
  - rewrite !styleText_join.
    rewrite (sortKeys_of_permutation (map fst style') (map fst style))
      by (apply Permutation_map, Permutation_sym, P).
    apply f_equal, map_ext. intros k. unfold styleDecl, getStyle.
    now rewrite (find_key_permutation style style' k N P).
  - apply styleText_join.
  - apply toKebab_no_capital.
Qed.

End AttrsHelperProperties.

(** Two objects merged; the second sets [class] to [null]. *)
Lemma attrs_later_part_wins_witness :
  NoDup (objectKeys [("class", VNull); ("role", VString "banner")])
  /\ attrs [Some [("id", VString "x"); ("class", VString "a")]; None;
            Some [("class", VNull); ("role", VString "banner")]]
     = [("id", VString "x"); ("class", VNull); ("role", VString "banner")]
  /\ getAttr
       (attrs ([Some [("id", VString "x"); ("class", VString "a")]; None]
               ++ [Some [("class", VNull); ("role", VString "banner")]]))
       "class" = VNull.
Proof.
  assert (NoDup (objectKeys [("class", VNull); ("role", VString "banner")])) as N.
  { repeat constructor; simpl; intuition discriminate. }
  split; [exact N|]. split; [reflexivity|].
  apply (attrs_later_part_wins
           [Some [("id", VString "x"); ("class", VString "a")]; None]
           [("class", VNull); ("role", VString "banner")] N).
  left. reflexivity.
Defined.

(** A style object and the same entries inserted in another order. *)
Lemma styleText_sorted_and_kebab_witness :
  NoDup (map fst [("fontSize", SString "13px"); ("color", SNull);
                  ("backgroundColor", SNumber (int 3))])
  /\ styleText [("fontSize", SString "13px"); ("color", SNull);
                ("backgroundColor", SNumber (int 3))]
     = "background-color:3;font-size:13px;"
  /\ styleText [("color", SNull); ("fontSize", SString "13px");
                ("backgroundColor", SNumber (int 3))]
     = styleText [("fontSize", SString "13px"); ("color", SNull);
                  ("backgroundColor", SNumber (int 3))].
Proof.
  assert (NoDup (map fst [("fontSize", SString "13px"); ("color", SNull);
                          ("backgroundColor", SNumber (int 3))])) as N.
  { repeat constructor; simpl; intuition discriminate. }
  split; [exact N|]. split; [reflexivity|].
  apply (proj1 (styleText_sorted_and_kebab
                  [("fontSize", SString "13px"); ("color", SNull);
                   ("backgroundColor", SNumber (int 3))]
                  [("color", SNull); ("fontSize", SString "13px");
                   ("backgroundColor", SNumber (int 3))]
                  N (perm_swap _ _ _))).
Defined.

(** ** classNames *)

(** Induction on a class specification, with the members of arrays. *)
Lemma ClassSpec_nested_ind (P : ClassSpec -> Prop) :
  (forall s, P (KString s)) ->
  P KNull -> P KUndefined -> P KFalse ->
  (forall xs, Forall P xs -> P (KArray xs)) ->
  (forall entries, P (KRecord entries)) ->
  forall p, P p.
Proof.
  intros Hs Hnull Hundef Hfalse Ha Hr.
  fix IH 1.
  intros [s| | | |xs|entries].
  - apply Hs.
  - exact Hnull.
  - exact Hundef.
  - exact Hfalse.
  - apply Ha. induction xs as [|x xs IHxs]; constructor.
    + apply IH.
    + exact IHxs.
  - apply Hr.
Qed.

Lemma fold_left_pushes {A B : Type} (f : list B -> A -> list B) (g : A -> list B)
    (xs : list A) (out : list B) :
  Forall (fun x => forall o, f o x = (o ++ g x)%list) xs ->
  fold_left f xs out = (out ++ flat_map g xs)%list.
Proof.
  intros F. revert out.
  induction F as [|x xs Hx _ IH]; intros out; simpl.
  - now rewrite app_nil_r.
  - now rewrite Hx, IH, <- app_assoc.
Qed.

Lemma record_tokens (entries : list (string * bool)) (out : list string) :
  fold_left (fun o (kv : string * bool) => if snd kv then (o ++ [fst kv])%list else o)
    entries out
  = (out ++ map fst (filter snd entries))%list.
Proof.
  revert out. induction entries as [|[k b] entries IH]; intros out; simpl.
  - now rewrite app_nil_r.
  - rewrite IH. destruct b; simpl; [now rewrite <- app_assoc | reflexivity].
Qed.

Lemma visitClass_tokensOf (p : ClassSpec) :
  forall out, visitClass p out = (out ++ tokensOf p)%list.
Proof.
  induction p as [s| | | |xs IHxs|entries] using ClassSpec_nested_ind;
    intros out; cbn [visitClass tokensOf]; try (now rewrite app_nil_r).
  - destruct s as [|a s]; [now rewrite app_nil_r|].
    destruct (trim (String a s)); [now rewrite app_nil_r | reflexivity].
  - now apply fold_left_pushes.
  - apply record_tokens.
Qed.

Lemma classNames_tokens (parts : list ClassSpec) :
  classNames parts = join " " (flat_map tokensOf parts).
Proof.
  unfold classNames. f_equal.
  rewrite (fold_left_pushes (fun out p => visitClass p out) tokensOf);
    [reflexivity|].
  apply Forall_forall. intros p _ o. apply visitClass_tokensOf.
Qed.

(** X6. [classNames] joins with single spaces the tokens its parts
    contribute, in order: [null], [undefined], [false] and a string of white
    space contribute nothing; any other string contributes itself, trimmed; an
    array contributes what its members contribute, so that passing an array is
    passing its members; a record contributes its keys whose value is [true],
    as they are. *)
Theorem classNames_rules :
  forall (rest : list ClassSpec),
    classNames (KNull :: rest) = classNames rest
    /\ classNames (KUndefined :: rest) = classNames rest
    /\ classNames (KFalse :: rest) = classNames rest
    /\ (forall s, isBlank s = true -> classNames (KString s :: rest) = classNames rest)
    /\ (forall s, classNames [KString s] = trim s)
    /\ (forall xs, classNames (KArray xs :: rest) = classNames (xs ++ rest))
    /\ (forall entries,
           classNames [KRecord entries] = join " " (map fst (filter snd entries)))
    /\ classNames rest = join " " (flat_map tokensOf rest).
Proof.
  intros rest. rewrite !classNames_tokens. repeat split; intros;
    rewrite ?classNames_tokens; cbn [flat_map tokensOf app]; try reflexivity.
  - unfold isBlank in H. destruct (trim s); [reflexivity | discriminate].
  - rewrite app_nil_r. destruct (trim s); reflexivity.
  - now rewrite flat_map_app.
  - now rewrite app_nil_r.
Qed.

Lemma classNames_rules_witness :
  isBlank "   " = true
  /\ classNames [KString " a "; KString "   "; KNull;
                 KArray [KString "b c"; KFalse; KRecord [("x", true); ("y", false)]]]
     = "a b c x"
  /\ classNames (KString "   " :: [KString "z"]) = classNames [KString "z"].
Proof.
  split; [reflexivity|]. split; [reflexivity|].
  destruct (classNames_rules [KString "z"]) as (_ & _ & _ & B & _).
  exact (B "   " eq_refl).
Defined.

(** ** Children: arrays, each, raw children *)

Section ChildrenProperties.
Context `{JsNumber}.

Lemma el_flatten_ext (tag : string) (at_ : option Attrs) (kids kids' : list Child) :
  flattenChildren kids = flattenChildren kids' ->
  el tag at_ kids = el tag at_ kids'.
Proof. intros E. unfold el, childrenToAst. now rewrite E. Qed.

(** X9. What a tag function returns depends on its children only through
    the flattened list: two lists of children that flatten to the same items
    give the same result (the same node and string, or the same error); so an
    array of children is the same as its members, at any depth. *)
Theorem el_depends_on_flattened_children :
  forall (tag : string) (at_ : option Attrs) (kids kids' : list Child),
    flattenChildren kids = flattenChildren kids' ->
    el tag at_ kids = el tag at_ kids'
    /\ el tag at_ [CArray kids] = el tag at_ kids
    /\ el tag at_ [CBuilder [kids]] = el tag at_ kids.
Proof.
  intros tag at_ kids kids' E. split; [|split].
  - now apply el_flatten_ext.
  - apply el_flatten_ext.
    now rewrite flattenChildren_cons, app_nil_r, (flattenChildren_itemsOf kids).
  - apply el_flatten_ext.
    rewrite flattenChildren_cons, app_nil_r, (flattenChildren_itemsOf kids).
    cbn [itemsOf flat_map]. now rewrite app_nil_r.
Qed.

Lemma withIndex_fst {T : Type} (items : list T) (i : nat) :
  map fst (withIndex i items) = items.
Proof.
  revert i. induction items as [|it items IH]; intros i; simpl;
    [reflexivity | now rewrite IH].
Qed.

Lemma withIndex_snd {T : Type} (items : list T) (i : nat) :
  map snd (withIndex i items) = seq i (length items).
Proof.
  revert i. induction items as [|it items IH]; intros i; simpl;
    [reflexivity | now rewrite IH].
Qed.

(** X8. The builder [each(items, fn)] contributes, in the order of the
    items, what the children [fn(item, index)] contribute, where the indices
    count from 0: a tag function gives for it what it gives for the list of
    those children. *)
Theorem each_is_the_list_of_results :
  forall (T : Type) (items : list T) (fn : T -> nat -> Child)
         (rest : list Child) (tag : string) (at_ : option Attrs),
    flattenChildren (each items fn :: rest)
    = flattenChildren (map (fun p => fn (fst p) (snd p)) (withIndex 0 items) ++ rest)
    /\ el tag at_ (each items fn :: rest)
       = el tag at_ (map (fun p => fn (fst p) (snd p)) (withIndex 0 items) ++ rest)
    /\ map fst (withIndex 0 items) = items
    /\ map snd (withIndex 0 items) = seq 0 (length items).
Proof.
  intros T items fn rest tag at_.
  assert (flattenChildren (each items fn :: rest)
          = flattenChildren
              (map (fun p => fn (fst p) (snd p)) (withIndex 0 items) ++ rest)) as E.
  { rewrite flattenChildren_cons, flattenChildren_app.
    f_equal. rewrite flattenChildren_itemsOf. unfold each. cbn [itemsOf].
    induction (withIndex 0 items) as [|p l IH]; [reflexivity|].
    cbn [map flat_map]. now rewrite IH, app_nil_r. }
  split; [exact E|]. split; [now apply el_flatten_ext|].
  split; [apply withIndex_fst | apply withIndex_snd].
Qed.

Lemma childToAst_raw (rs : list RawHtml) :
  mapResult childToAst (map FRawHtml rs) = Ok (map astOf rs).
Proof.
  induction rs as [|r rs IH]; [reflexivity|].
  cbn [map mapResult childToAst bind]. rewrite IH. reflexivity.
Qed.

Lemma flattenChildren_raw (rs : list RawHtml) :
  flattenChildren (map CRawHtml rs) = map FRawHtml rs.
Proof.
  rewrite flattenChildren_itemsOf.
  induction rs as [|r rs IH]; [reflexivity|].
  cbn [map flat_map itemsOf app]. now rewrite IH.
Qed.

(** A tag that is not void around [RawHtml] children. *)
Lemma el_on_raw_children (tag : string) (at_ : option Attrs) (rs : list RawHtml) :
  isVoidElement tag = false ->
  exists r,
    el tag at_ (map CRawHtml rs) = Ok r
    /\ __ast r = Some (Element tag (attrsAst at_) (Some (map astOf rs)) None)
    /\ __rawHtml r
       = "<" ++ tag ++ attrTokensOf at_ ++ ">"
         ++ join EmptyString (map (fun c => renderAstMinimized (astOf c)) rs)
         ++ "</" ++ tag ++ ">"
    /\ (Forall consistent rs ->
        __rawHtml r
        = "<" ++ tag ++ attrTokensOf at_ ++ ">"
          ++ join EmptyString (map __rawHtml rs) ++ "</" ++ tag ++ ">").
Proof.
  intros V. rewrite (el_non_void _ _ _ V).
  unfold childrenToAst. rewrite flattenChildren_raw, childToAst_raw.
  cbn [bind]. eexists. split; [reflexivity|]. split; [reflexivity|].
  cbn [__rawHtml]. unfold inner. rewrite map_map. split; [reflexivity|].
  intros C.
  assert (map (fun c => renderAstMinimized (astOf c)) rs = map __rawHtml rs) as ->;
    [|reflexivity].
  apply map_ext_in. intros c I.
  rewrite Forall_forall in C. symmetry. apply (C c I).
Qed.

(** X10. A tag function of a tag that is not void never fails on children
    that are all [RawHtml] values, and its string is the open tag, the
    minimized serializations of the trees the children retain (not their
    cached strings), and the close tag. When the cached string of every child
    is the serialization of its tree, as for the results of tag functions,
    [trustedRaw], [doctype] and [comment], it is the open tag, the strings of
    the children and the close tag. *)
Theorem el_of_raw_children :
  forall (tag : string) (at_ : option Attrs) (rs : list RawHtml),
    isVoidElement tag = false ->
    exists r,
      el tag at_ (map CRawHtml rs) = Ok r
      /\ __ast r = Some (Element tag (attrsAst at_) (Some (map astOf rs)) None)
      /\ __rawHtml r
         = "<" ++ tag ++ attrTokensOf at_ ++ ">"
           ++ join EmptyString (map (fun c => renderAstMinimized (astOf c)) rs)
           ++ "</" ++ tag ++ ">"
      /\ (Forall consistent rs ->
          __rawHtml r
          = "<" ++ tag ++ attrTokensOf at_ ++ ">"
            ++ join EmptyString (map __rawHtml rs) ++ "</" ++ tag ++ ">").
Proof. intros tag at_ rs V. now apply el_on_raw_children. Qed.

(** The values whose cached string is the serialization of their tree. *)
Lemma consistent_values :
  (forall tag at_ kids r, el tag at_ kids = Ok r -> consistent r)
  /\ (forall html hint, consistent (trustedRaw html hint))
  /\ consistent doctype
  /\ (forall s, consistent (comment s)).
Proof.
  repeat split.
  intros tag at_ kids r E. unfold el in E.
  destruct (if isVoidElement tag then _ else _) as [c|e]; cbn [bind] in E;
    [|discriminate].
  inversion E. reflexivity.
Qed.

(** X18. A name with a hyphen, as every name of a custom element has, is
    never a void element: the tag function [customElement(name)] builds its
    children and writes the close tag. *)
Theorem custom_element_is_never_void :
  forall (name : string) (at_ : option Attrs) (kids : list Child) (r : RawHtml),
    includes "-"%char name = true ->
    customElement name at_ kids = Ok r ->
    isVoidElement name = false
    /\ exists nodes,
        childrenToAst kids = Ok nodes
        /\ __ast r = Some (Element name (attrsAst at_) (Some nodes) None)
        /\ __rawHtml r = "<" ++ name ++ attrTokensOf at_ ++ ">" ++ inner nodes
                         ++ "</" ++ name ++ ">".
Proof.
  intros name at_ kids r Hy E.
  assert (isVoidElement name = false) as V.
  { assert (includes "-"%char (toLowerCase name) = true) as L.
    { clear E. induction name as [|a name IH]; [discriminate|].
      cbn [includes toLowerCase] in *.
      destruct (Ascii.eqb_spec a "-"%char) as [->|Hne]; [reflexivity|].
      cbn [orb] in Hy. rewrite (IH Hy). apply orb_true_r. }
    unfold isVoidElement, VOID_ELEMENTS. cbn [existsb].
    repeat match goal with
           | |- context [String.eqb ?u ?v] =>
               destruct (String.eqb_spec u v) as [Eq|_];
               [rewrite Eq in L; discriminate|]
           end.
    reflexivity. }
  split; [exact V|].
  unfold customElement, tag in E. rewrite (el_non_void _ _ _ V) in E.
  destruct (childrenToAst kids) as [nodes|e]; cbn [bind] in E; [|discriminate].
  inversion E. exists nodes. repeat split.
Qed.

End ChildrenProperties.

(** A tag function around an array and the same call with the members. *)
Lemma el_depends_on_flattened_children_witness :
  flattenChildren [CArray [CString "a"; CArray [CNull; CString "b"]]; CBoolean true]
  = flattenChildren [CString "a"; CString "b"]
  /\ el "p" None [CArray [CString "a"; CArray [CNull; CString "b"]]; CBoolean true]
     = el "p" None [CString "a"; CString "b"].
Proof.
  split; [reflexivity|].
  apply (el_depends_on_flattened_children "p" None
           [CArray [CString "a"; CArray [CNull; CString "b"]]; CBoolean true]
           [CString "a"; CString "b"]).
  reflexivity.
Defined.

(** A list item around a link and a comment. *)
Lemma el_of_raw_children_witness :
  isVoidElement "li" = false
  /\ exists r,
      el "li" None [CRawHtml (trustedRaw "<a>x</a>" None); CRawHtml (comment "c")]
      = Ok r
      /\ __rawHtml r = "<li><a>x</a><!--c--></li>".
Proof.
  split; [reflexivity|].
  destruct (el_of_raw_children "li" None [trustedRaw "<a>x</a>" None; comment "c"]
              eq_refl) as (r & E & _ & R & _).
  exists r. split; [exact E|]. rewrite R. reflexivity.
Defined.

(** The custom element [x-counter] around a text. *)
Lemma custom_element_is_never_void_witness :
  includes "-"%char "x-counter" = true
  /\ customElement "x-counter" None [CString "0"]
     = Ok (mkRawHtml "<x-counter>0</x-counter>"
             (Some (Element "x-counter" None (Some [Text "0"]) None)))
  /\ isVoidElement "x-counter" = false.
Proof.
  split; [reflexivity|]. split; [reflexivity|].
  apply (custom_element_is_never_void "x-counter" None [CString "0"] _ eq_refl
           eq_refl).
Defined.

(** ** The pretty renderer *)

Lemma repeat_succ_r (s : string) (n : nat) : repeat s (S n) = repeat s n ++ s.
Proof.
  induction n as [|n IH]; simpl; [now rewrite append_nil_r|].
  simpl in IH. now rewrite IH at 1; rewrite append_assoc.
Qed.

Lemma Forall_flat_map_intro {A B : Type} (P : B -> Prop) (g : A -> list B)
    (l : list A) :
  Forall (fun x => Forall P (g x)) l -> Forall P (flat_map g l).
Proof.
  induction 1 as [|x l Hx _ IH]; simpl; [constructor|].
  apply Forall_app. now split.
Qed.

(** What the last lines of [renderAstPretty] make of the lines. *)
Lemma join_lines_cons (x : string) (l : list string) :
  join nl (x :: l) ++ nl
  = x ++ nl ++ match l with
               | [] => EmptyString
               | _ => join nl l ++ nl
               end.
Proof.
  unfold join. destruct l as [|y l]; cbn [String.concat].
  - reflexivity.
  - now rewrite !append_assoc.
Qed.

Section PrettyProperties.
Context `{JsNumber}.

(** Induction on a tree, with the children of fragments and elements. *)
Lemma HtmlAst_nested_ind (P : HtmlAst -> Prop) :
  (forall kids, Forall P kids -> P (Fragment kids)) ->
  (forall tag attrs kids void, Forall P (orEmpty kids) -> P (Element tag attrs kids void)) ->
  (forall text, P (Text text)) ->
  (forall html, P (Raw html)) ->
  (forall text, P (Comment text)) ->
  P Doctype ->
  forall n, P n.
Proof.
  intros Hf He Ht Hr Hc Hd.
  fix IH 1.
  intros [kids|tag attrs kids void|text|html|text|].
  - apply Hf. induction kids as [|k kids IHkids]; constructor.
    + apply IH.
    + exact IHkids.
  - apply He. destruct kids as [kids|]; [|constructor].
    cbn [orEmpty]. induction kids as [|k kids IHkids]; constructor.
    + apply IH.
    + exact IHkids.
  - apply Ht.
  - apply Hr.
  - apply Hc.
  - exact Hd.
Qed.

Lemma pushRawLines_lines (pad text : string) (lines : list string) :
  pushRawLines pad text lines
  = app lines
      (map (fun line => pad ++ line)
         (split "010"%char (replaceAll (cr ++ nl) nl text))).
Proof.
  unfold pushRawLines, push.
  rewrite (fold_left_pushes _ (fun line : string => [(pad ++ line)%string]));
    [|apply Forall_forall; reflexivity].
  f_equal.
Qed.

(** [emit] pushes its lines after what [lines] holds. *)
Lemma emit_appends (n : HtmlAst) :
  forall depth lines, emit n depth lines = (lines ++ emit n depth [])%list.
Proof.
  induction n as [kids IH|tag attrs kids void IH|text|html|text|]
    using HtmlAst_nested_ind; intros depth lines; cbn [emit]; unfold push;
    try reflexivity.
  - rewrite !(fold_left_pushes _ (fun c => emit c depth [])); [reflexivity| |];
      (eapply Forall_impl; [|exact IH]); intros c Hc o; apply Hc.
  - destruct (isTrue void); [reflexivity|].
    destruct kids as [[|k kids]|]; try reflexivity.
    destruct (negb (isRawBlockTag tag) && _); [reflexivity|].
    cbn [orEmpty] in IH.
    assert (forall f : list string -> HtmlAst -> list string,
               Forall (fun c => forall o, f o c = (o ++ f [] c)%list) (k :: kids) ->
               forall first last : string,
                 (fold_left f (k :: kids) (lines ++ [first]) ++ [last])%list
                 = (lines ++ (fold_left f (k :: kids) ([] ++ [first]) ++ [last]))%list)
      as K.
    { intros f F first last.
      rewrite !(fold_left_pushes f (fun c => f [] c) _ _ F).
      now rewrite <- !app_assoc. }
    destruct (isRawBlockTag tag); apply K.
    + eapply Forall_impl; [|exact IH]. intros c Hc o.
      destruct c; try apply Hc; rewrite !pushRawLines_lines; reflexivity.
    + eapply Forall_impl; [|exact IH]. intros c Hc o. apply Hc.
  - now rewrite !pushRawLines_lines.
Qed.

Lemma emit_fragment (kids : list HtmlAst) (depth : nat) :
  emit (Fragment kids) depth [] = flat_map (fun c => emit c depth []) kids.
Proof.
  cbn [emit]. rewrite (fold_left_pushes _ (fun c => emit c depth [])); [reflexivity|].
  apply Forall_forall. intros c _ o. apply emit_appends.
Qed.

Lemma indentedAt_deeper (depth : nat) (line : string) :
  indentedAt (depth + 1) line -> indentedAt depth line.
Proof.
  intros [rest E]. rewrite Nat.add_1_r, repeat_succ_r, append_assoc in E.
  now exists (indentUnit ++ rest).
Qed.

Lemma indentedAt_pad (depth : nat) (rest : string) :
  indentedAt depth (repeat indentUnit depth ++ rest).
Proof. now exists rest. Qed.

Lemma pushRawLines_indented (depth : nat) (extra text : string) :
  Forall (indentedAt depth)
    (pushRawLines (repeat indentUnit depth ++ extra) text []).
Proof.
  rewrite pushRawLines_lines. cbn [app]. apply Forall_forall.
  intros line I. apply in_map_iff in I. destruct I as (l & <- & _).
  rewrite append_assoc. apply indentedAt_pad.
Qed.

Lemma emit_indented (n : HtmlAst) :
  forall depth, Forall (indentedAt depth) (emit n depth []).
Proof.
  induction n as [kids IH|tag attrs kids void IH|text|html|text|]
    using HtmlAst_nested_ind; intros depth.
  - rewrite emit_fragment. apply Forall_flat_map_intro.
    eapply Forall_impl; [|exact IH]. intros c Hc. apply Hc.
  - cbn [emit]. unfold push.
    destruct (isTrue void); [repeat constructor; apply indentedAt_pad|].
    destruct kids as [[|k kids]|]; try (repeat constructor; apply indentedAt_pad).
    destruct (negb (isRawBlockTag tag) && _);
      [repeat constructor; apply indentedAt_pad|].
    cbn [orEmpty] in IH.
    assert (forall f : list string -> HtmlAst -> list string,
               Forall (fun c => forall o, f o c = (o ++ f [] c)%list) (k :: kids) ->
               Forall (fun c => Forall (indentedAt depth) (f [] c)) (k :: kids) ->
               forall first last : string,
                 indentedAt depth first -> indentedAt depth last ->
                 Forall (indentedAt depth)
                   (fold_left f (k :: kids) ([] ++ [first]) ++ [last])%list) as K.
    { intros f F I first last If Il.
      rewrite (fold_left_pushes f (fun c => f [] c) _ _ F).
      apply Forall_app. split; [|repeat constructor; assumption].
      apply Forall_app. split; [repeat constructor; assumption|].
      now apply Forall_flat_map_intro. }
    destruct (isRawBlockTag tag); apply K; try apply indentedAt_pad.
    + apply Forall_forall. intros c _ o.
      destruct c; try apply emit_appends; rewrite !pushRawLines_lines; reflexivity.
    + eapply Forall_impl; [|exact IH]. intros c Hc.
      destruct c; try (apply pushRawLines_indented);
        (eapply Forall_impl; [|apply (Hc (depth + 1))]);
        intros line; apply indentedAt_deeper.
    + apply Forall_forall. intros c _ o. apply emit_appends.
    + eapply Forall_impl; [|exact IH]. intros c Hc.
      eapply Forall_impl; [|apply (Hc (depth + 1))].
      intros line; apply indentedAt_deeper.
  - cbn [emit]. unfold push. repeat constructor. apply indentedAt_pad.
  - cbn [emit]. rewrite <- (append_nil_r (repeat indentUnit depth)).
    apply pushRawLines_indented.
  - cbn [emit]. unfold push. repeat constructor. apply indentedAt_pad.
  - cbn [emit]. unfold push. repeat constructor. apply indentedAt_pad.
Qed.

(** X12. [emit] of the pretty renderer only adds lines after the lines
    already pushed, and every line it adds for a node at a depth starts with
    the indentation of that depth (two spaces for every level). *)
Theorem emit_appends_indented_lines :
  forall (n : HtmlAst) (depth : nat) (lines : list string),
    exists added,
      emit n depth lines = (lines ++ added)%list
      /\ Forall (indentedAt depth) added.
Proof.
  intros n depth lines. exists (emit n depth []). split.
  - apply emit_appends.
  - apply emit_indented.
Qed.

Lemma renderAstPretty_fragment_app (xs ys : list HtmlAst) :
  renderAstPretty (Fragment (xs ++ ys))
  = renderAstPretty (Fragment xs) ++ renderAstPretty (Fragment ys).
Proof.
  unfold renderAstPretty. rewrite !emit_fragment, flat_map_app.
  generalize (flat_map (fun c => emit c 0 []) ys) as l2.
  induction (flat_map (fun c => emit c 0 []) xs) as [|x l1 IH]; intros l2.
  - cbn [app]. destruct l2; reflexivity.
  - change ((x :: l1) ++ l2)%list with (x :: (l1 ++ l2))%list.
    rewrite !join_lines_cons. specialize (IH l2).
    destruct l1 as [|y l1].
    + cbn [app] in *. destruct l2; [now rewrite !append_nil_r|].
      now rewrite !append_assoc.
    + change ((y :: l1) ++ l2)%list with (y :: (l1 ++ l2))%list in *.
      rewrite IH. now rewrite !append_assoc.
Qed.

(** X13. [renderPretty] of parts one after another is the concatenation of
    what it gives for each run of parts: every part is printed from depth 0,
    on lines of its own. *)
Theorem renderPretty_distributes_over_parts :
  forall (ps qs : list Part),
    renderPretty (ps ++ qs) = renderPretty ps ++ renderPretty qs.
Proof.
  intros ps qs. unfold renderPretty. rewrite map_app.
  apply renderAstPretty_fragment_app.
Qed.

End PrettyProperties.

Section PrettyOfTagCalls.
Context `{JsNumber}.

Lemma renderPretty_single (r : RawHtml) :
  renderPretty [PRawHtml r]
  = match emit (astOf r) 0 [] with
    | [] => EmptyString
    | lines => join nl lines ++ nl
    end.
Proof.
  unfold renderPretty, renderAstPretty. cbn [map]. fold (astOf r).
  rewrite emit_fragment. cbn [flat_map]. now rewrite app_nil_r.
Qed.

Lemma openTag_attrsAst (tag : string) (at_ : option Attrs) :
  openTag tag (attrsAst at_) = "<" ++ tag ++ attrTokensOf at_ ++ ">".
Proof. unfold openTag. now rewrite attrText_attrsAst. Qed.

Lemma raw_block_is_not_void (tag : string) :
  isRawBlockTag tag = true -> isVoidElement tag = false.
Proof.
  unfold isRawBlockTag, isVoidElement. cbv zeta.
  repeat match goal with
         | |- context [String.eqb (toLowerCase tag) ?v] =>
             destruct (String.eqb_spec (toLowerCase tag) v) as [->|_];
             [reflexivity|]
         end.
  discriminate.
Qed.

(** The lines of an element of a raw block tag around one text or raw
    node. *)
Lemma emit_raw_block (tag : string) (attrs : option (list (string * AttrValue)))
    (kid : HtmlAst) (text : string) :
  isRawBlockTag tag = true ->
  kid = Text text \/ kid = Raw text ->
  emit (Element tag attrs (Some [kid]) None) 0 []
  = openTag tag attrs
    :: app (map (fun line => indentUnit ++ line)
              (split "010"%char (replaceAll (cr ++ nl) nl text)))
         [closeTag tag].
Proof.
  intros B K. cbn [emit isTrue]. rewrite B. cbn [negb andb fold_left].
  unfold push. destruct K as [-> | ->]; rewrite pushRawLines_lines; reflexivity.
Qed.

(** X14. For a tag-function result that is a leaf (a void element, an element
    without children, or an element, not of a raw block tag, whose only child
    is a text of one line that is at most 80 code units long when trimmed),
    the pretty renderer gives the minimized string and a line feed. *)
Theorem pretty_of_a_leaf_is_the_minimized_line :
  forall (tag : string) (at_ : option Attrs) (kids : list Child) (r : RawHtml),
    el tag at_ kids = Ok r ->
    (isVoidElement tag = true
     \/ flattenChildren kids = []
     \/ (isRawBlockTag tag = false
         /\ exists s, flattenChildren kids = [FString s]
                      /\ includes "010"%char s = false
                      /\ (String.length (trim s) <=? 80)%nat = true)) ->
    renderPretty [PRawHtml r] = __rawHtml r ++ nl.
Proof.
  intros tag at_ kids r E C. rewrite renderPretty_single.
  destruct (isVoidElement tag) eqn:V.
  - rewrite (el_void _ _ _ V) in E. inversion E. subst r.
    cbn [astOf __ast __rawHtml emit isTrue]. unfold push.
    now rewrite openTag_attrsAst.
  - rewrite (el_non_void _ _ _ V) in E. unfold childrenToAst in E.
    destruct C as [C|[F|(B & s & F & L & T)]]; [discriminate| |];
      rewrite F in E; cbn [mapResult childToAst bind] in E; inversion E; subst r;
      cbn [astOf __ast __rawHtml emit isTrue]; unfold push.
    + rewrite openTag_attrsAst. unfold closeTag, inner.
      cbn [map join String.concat app repeat].
      repeat (progress (rewrite ?append_assoc; cbn [append])). reflexivity.
    + rewrite B. cbn [negb andb shouldInlineTextOnly isTrue orEmpty].
      rewrite L, T. cbn [onlyText].
      rewrite openTag_attrsAst. unfold closeTag, inner.
      cbn [map renderAstMinimized join String.concat app repeat].
      repeat (progress (rewrite ?append_assoc; cbn [append])). reflexivity.
Qed.

(** An element of a raw block tag around one string, or around one
    [trustedRaw]. *)
Lemma raw_block_of_one_child (tag : string) (at_ : option Attrs) (s : string) :
  isRawBlockTag tag = true ->
  (exists r,
      el tag at_ [CString s] = Ok r
      /\ __rawHtml r = "<" ++ tag ++ attrTokensOf at_ ++ ">" ++ escapeOnce s
                       ++ "</" ++ tag ++ ">"
      /\ renderPretty [PRawHtml r]
         = join nl
             (("<" ++ tag ++ attrTokensOf at_ ++ ">")
              :: app (map (fun line => indentUnit ++ line)
                        (split "010"%char (replaceAll (cr ++ nl) nl s)))
                   ["</" ++ tag ++ ">"])
           ++ nl)
  /\ (forall hint,
         exists r,
           el tag at_ [CRawHtml (trustedRaw s hint)] = Ok r
           /\ __rawHtml r = "<" ++ tag ++ attrTokensOf at_ ++ ">" ++ s
                            ++ "</" ++ tag ++ ">"
           /\ renderPretty [PRawHtml r]
              = join nl
                  (("<" ++ tag ++ attrTokensOf at_ ++ ">")
                   :: app (map (fun line => indentUnit ++ line)
                             (split "010"%char (replaceAll (cr ++ nl) nl s)))
                        ["</" ++ tag ++ ">"])
                ++ nl).
Proof.
  intros B. pose proof (raw_block_is_not_void tag B) as V.
  split; [|intros hint]; rewrite (el_non_void _ _ _ V);
    cbn [childrenToAst flattenChildren fold_left visit app mapResult childToAst
           bind __ast trustedRaw];
    eexists; (split; [reflexivity|]); cbn [__rawHtml]; split.
  - unfold inner. cbn [map renderAstMinimized join String.concat].
    now rewrite escapeHtml_once.
  - rewrite renderPretty_single. cbn [astOf __ast].
    rewrite (emit_raw_block tag _ (Text s) s B (or_introl eq_refl)).
    now rewrite openTag_attrsAst.
  - reflexivity.
  - rewrite renderPretty_single. cbn [astOf __ast].
    rewrite (emit_raw_block tag _ (Raw s) s B (or_intror eq_refl)).
    now rewrite openTag_attrsAst.
Qed.

(** X15. For an element of a raw block tag ([script], [style], [pre],
    [textarea]) around one string, the pretty renderer prints the string as it
    is, a line for each of its lines, indented by one level, between the open
    and the close tag, while the minimized string holds the string escaped;
    around one [trustedRaw] both hold it as it is. *)
Theorem raw_block_text_is_printed_verbatim :
  forall (tag : string) (at_ : option Attrs) (s : string),
    isRawBlockTag tag = true ->
    (exists r,
        el tag at_ [CString s] = Ok r
        /\ __rawHtml r = "<" ++ tag ++ attrTokensOf at_ ++ ">" ++ escapeOnce s
                         ++ "</" ++ tag ++ ">"
        /\ renderPretty [PRawHtml r]
           = join nl
               (("<" ++ tag ++ attrTokensOf at_ ++ ">")
                :: app (map (fun line => indentUnit ++ line)
                          (split "010"%char (replaceAll (cr ++ nl) nl s)))
                     ["</" ++ tag ++ ">"])
             ++ nl)
    /\ (forall hint,
           exists r,
             el tag at_ [CRawHtml (trustedRaw s hint)] = Ok r
             /\ __rawHtml r = "<" ++ tag ++ attrTokensOf at_ ++ ">" ++ s
                              ++ "</" ++ tag ++ ">"
             /\ renderPretty [PRawHtml r]
                = join nl
                    (("<" ++ tag ++ attrTokensOf at_ ++ ">")
                     :: app (map (fun line => indentUnit ++ line)
                               (split "010"%char (replaceAll (cr ++ nl) nl s)))
                          ["</" ++ tag ++ ">"])
                  ++ nl).
Proof. intros tag at_ s B. now apply raw_block_of_one_child. Qed.

(** X11. [scriptJs] and [styleCss] hand their attribute object to the tag
    function as its first argument. When [isAttrs] accepts the object (it has
    neither the key [__rawHtml] nor the key [nodeType]; so always without an
    object), the call returns and holds the code as it is, in no way escaped:
    the minimized string is the open tag with the sorted attributes, the code
    and the close tag, and the pretty renderer prints the lines of the code,
    indented by one level, between the two tags. When the object has a key
    [nodeType] with a number and no key [__rawHtml], it is taken as a DOM-like
    child and the call throws. *)
Theorem scriptJs_and_styleCss_hold_the_code_verbatim :
  forall (code : string) (at_ : option Attrs),
    (isAttrs (orEmpty at_) = true ->
     (exists r,
         scriptJs code at_ = Some (Ok r)
         /\ __rawHtml r
            = "<script" ++ attrTokensOf (Some (orEmpty at_)) ++ ">" ++ code ++ "</script>"
         /\ renderPretty [PRawHtml r]
            = join nl
                (("<script" ++ attrTokensOf (Some (orEmpty at_)) ++ ">")
                 :: app (map (fun line => indentUnit ++ line)
                           (split "010"%char (replaceAll (cr ++ nl) nl code)))
                      ["</script>"])
              ++ nl)
     /\ (exists r,
            styleCss code at_ = Some (Ok r)
            /\ __rawHtml r
               = "<style" ++ attrTokensOf (Some (orEmpty at_)) ++ ">" ++ code ++ "</style>"
            /\ renderPretty [PRawHtml r]
               = join nl
                   (("<style" ++ attrTokensOf (Some (orEmpty at_)) ++ ">")
                    :: app (map (fun line => indentUnit ++ line)
                              (split "010"%char (replaceAll (cr ++ nl) nl code)))
                         ["</style>"])
                 ++ nl))
    /\ (at_ = None -> isAttrs (orEmpty at_) = true)
    /\ (forall n,
           hasKey "__rawHtml" (orEmpty at_) = false ->
           getAttr (orEmpty at_) "nodeType" = VNumber n ->
           scriptJs code at_ = Some (Throw domNodeError)
           /\ styleCss code at_ = Some (Throw domNodeError)).
Proof.
  intros code at_. split; [|split].
  - intros A. unfold scriptJs, styleCss.
    rewrite (elArgs_attrs "script" _ _ A), (elArgs_attrs "style" _ _ A). split.
    + destruct (proj2 (raw_block_of_one_child "script"
                         (Some (orEmpty at_)) code eq_refl) None)
        as (r & E & R & P).
      exists r. split; [exact (f_equal Some E)|]. split; assumption.
    + destruct (proj2 (raw_block_of_one_child "style"
                         (Some (orEmpty at_)) code eq_refl) None)
        as (r & E & R & P).
      exists r. split; [exact (f_equal Some E)|]. split; assumption.
  - intros ->. reflexivity.
  - intros n R T. pose proof (getAttr_hasKey _ _ _ T) as K.
    unfold scriptJs, styleCss, elArgs, isAttrs, objectAsChild. rewrite R, K, T.
    split; reflexivity.
Qed.

End PrettyOfTagCalls.

(** ** Escaping in the two renderers *)

Section EscapingInTheRenderers.
Context `{JsNumber}.

Lemma attrToken_text (k : string) (v : AttrValue) :
  isTextValue v = true ->
  attrToken k v = " " ++ k ++ "=" ++ dq ++ escapeOnce (toStr v) ++ dq.
Proof. destruct v; try discriminate; reflexivity. Qed.

(** The token of a key stands between the tokens of the keys sorted before
    and after it. *)
Lemma sortedAttrTokens_at (a : Attrs) (k : string) (v : AttrValue) :
  NoDup (objectKeys a) -> In (k, v) a ->
  exists before after,
    sortKeys (objectKeys a) = (before ++ k :: after)%list
    /\ sortedAttrTokens a
       = tokensOfKeys a before ++ attrToken k v ++ tokensOfKeys a after.
Proof.
  intros N I.
  assert (In k (sortKeys (objectKeys a))) as Ik.
  { apply (Permutation_in _ (sortKeys_permutation _)). unfold objectKeys.
    change k with (fst (k, v)). now apply in_map. }
  apply in_split in Ik. destruct Ik as (before & after & S).
  exists before, after. split; [exact S|].
  unfold sortedAttrTokens, tokensOfKeys. rewrite S, map_app, join_empty_app.
  cbn [map]. rewrite join_empty_cons. now rewrite (getAttr_in a k v N I).
Qed.

Lemma mapResult_nil_inv {A B : Type} (f : A -> result B) (ys : list B) :
  mapResult f [] = Ok ys -> ys = [].
Proof. intros E. now inversion E. Qed.

Lemma mapResult_cons_inv {A B : Type} (f : A -> result B) (x : A) (xs : list A)
    (ys : list B) :
  mapResult f (x :: xs) = Ok ys -> exists y ys', ys = y :: ys'.
Proof.
  cbn [mapResult]. destruct (f x) as [y|e]; cbn [bind]; [|discriminate].
  destruct (mapResult f xs) as [ys'|e]; cbn [bind]; [|discriminate].
  intros E. inversion E. now exists y, ys'.
Qed.

(** The node of a call of a tag that is not void, around an item of the
    flattened children. *)
Lemma el_non_void_nodes (tag : string) (at_ : option Attrs) (kids : list Child)
    (r : RawHtml) (fb fa : list FlatChild) (item : FlatChild) (node : HtmlAst) :
  isVoidElement tag = false ->
  el tag at_ kids = Ok r ->
  flattenChildren kids = (fb ++ item :: fa)%list ->
  childToAst item = Ok node ->
  exists nb na,
    mapResult childToAst fb = Ok nb /\ mapResult childToAst fa = Ok na
    /\ r = mkRawHtml
             ("<" ++ tag ++ attrTokensOf at_ ++ ">" ++ inner (nb ++ node :: na)
              ++ "</" ++ tag ++ ">")
             (Some (Element tag (attrsAst at_) (Some (nb ++ node :: na)%list) None)).
Proof.
  intros V E F C.
  rewrite (el_non_void _ _ _ V) in E. unfold childrenToAst in E.
  rewrite F in E. change (item :: fa) with ([item] ++ fa)%list in E.
  rewrite !mapResult_app in E. cbn [mapResult] in E. rewrite C in E.
  destruct (mapResult childToAst fb) as [nb|e]; cbn [bind] in E; [|discriminate].
  destruct (mapResult childToAst fa) as [na|e]; cbn [bind] in E; [|discriminate].
  inversion E. exists nb, na. repeat split.
Qed.

Lemma shouldInline_at (nb na : list HtmlAst) (c : HtmlAst) :
  shouldInlineTextOnly None (Some (nb ++ c :: na)%list)
  = match nb, na, c with
    | [], [], Text t => fitsOnLine t
    | _, _, _ => false
    end.
Proof.
  unfold shouldInlineTextOnly, fitsOnLine. cbn [isTrue orEmpty].
  destruct nb as [|x [|y nb]]; reflexivity.
Qed.

Lemma kidLines_text (tag : string) (s : string) :
  kidLines tag (Text s)
  = if isRawBlockTag tag then verbatimLines s else [indentUnit ++ escapeOnce s].
Proof.
  unfold kidLines. destruct (isRawBlockTag tag); [reflexivity|].
  cbn [emit]. unfold push. now rewrite escapeHtml_once.
Qed.

Lemma kidLines_raw (tag : string) (html : string) :
  kidLines tag (Raw html) = verbatimLines html.
Proof.
  unfold kidLines. destruct (isRawBlockTag tag); [reflexivity|].
  cbn [emit]. now rewrite pushRawLines_lines.
Qed.

(** The lines of an element that is not printed on one line. *)
Lemma emit_element_block (tag : string) (attrs : option (list (string * AttrValue)))
    (k : HtmlAst) (kids : list HtmlAst) :
  negb (isRawBlockTag tag) && shouldInlineTextOnly None (Some (k :: kids)) = false ->
  emit (Element tag attrs (Some (k :: kids)) None) 0 []
  = openTag tag attrs :: app (flat_map (kidLines tag) (k :: kids)) [closeTag tag].
Proof.
  intros I. cbn [emit isTrue]. rewrite I. unfold push, kidLines.
  destruct (isRawBlockTag tag).
  - rewrite (fold_left_pushes _
               (fun c => match c with
                         | Text text => verbatimLines text
                         | Raw html => verbatimLines html
                         | _ => emit c 1 []
                         end)).
    + reflexivity.
    + apply Forall_forall. intros c _ o.
      destruct c; try apply emit_appends; now rewrite pushRawLines_lines.
  - rewrite (fold_left_pushes _ (fun c => emit c 1 [])); [reflexivity|].
    apply Forall_forall. intros c _ o. apply emit_appends.
Qed.

Lemma renderPretty_block (tag : string) (at_ : option Attrs) (s : string)
    (nb na : list HtmlAst) (c : HtmlAst) :
  negb (isRawBlockTag tag) && shouldInlineTextOnly None (Some (nb ++ c :: na)%list)
  = false ->
  renderPretty
    [PRawHtml (mkRawHtml s
                 (Some (Element tag (attrsAst at_) (Some (nb ++ c :: na)%list) None)))]
  = prettyBlock tag at_
      (flat_map (kidLines tag) nb ++ kidLines tag c ++ flat_map (kidLines tag) na)%list.
Proof.
  intros I. rewrite renderPretty_single. cbn [astOf __ast]. unfold prettyBlock.
  destruct (nb ++ c :: na)%list as [|k kids] eqn:L.
  { destruct nb; discriminate. }
  rewrite (emit_element_block _ _ _ _ I), openTag_attrsAst. rewrite <- L.
  rewrite flat_map_app. cbn [flat_map]. reflexivity.
Qed.

(** What [renderPretty] gives for the result of a tag function starts with
    the open tag. *)
Lemma renderPretty_open_tag (tag : string) (at_ : option Attrs) (kids : list Child)
    (r : RawHtml) :
  el tag at_ kids = Ok r ->
  exists rest,
    renderPretty [PRawHtml r] = "<" ++ tag ++ attrTokensOf at_ ++ ">" ++ rest.
Proof.
  intros E. rewrite renderPretty_single.
  assert (exists l ls, emit (astOf r) 0 [] = l :: ls
                       /\ exists t, l = openTag tag (attrsAst at_) ++ t) as K.
  { destruct (isVoidElement tag) eqn:V.
    - rewrite (el_void _ _ _ V) in E. inversion E.
      cbn [astOf __ast emit isTrue]. unfold push.
      do 2 eexists. split; [reflexivity|]. exists EmptyString.
      cbn [app repeat append]. now rewrite append_nil_r.
    - rewrite (el_non_void _ _ _ V) in E.
      destruct (childrenToAst kids) as [nodes|e]; cbn [bind] in E; [|discriminate].
      inversion E. cbn [astOf __ast].
      destruct nodes as [|k nodes].
      + cbn [emit isTrue]. unfold push. do 2 eexists. split; [reflexivity|].
        now exists (closeTag tag).
      + destruct (negb (isRawBlockTag tag)
                  && shouldInlineTextOnly None (Some (k :: nodes))) eqn:I.
        * cbn [emit isTrue]. rewrite I. unfold push.
          do 2 eexists. split; [reflexivity|]. now eexists.
        * rewrite (emit_element_block _ _ _ _ I).
          do 2 eexists. split; [reflexivity|]. exists EmptyString.
          now rewrite append_nil_r. }
  destruct K as (l & ls & -> & t & ->). rewrite join_lines_cons, openTag_attrsAst.
  eexists. repeat (progress (rewrite ?append_assoc; cbn [append])). reflexivity.
Qed.

(** C4 (as the code has it). In the minimized string of the element a tag
    function returns, every value of an attribute that is a string or a
    number stands escaped exactly once between double quotes, for every tag,
    void or not; every plain string among the flattened children of a tag that
    is not void stands escaped exactly once (each of the five characters is
    replaced by its entity, in one pass, and the entities are not escaped
    again), and the content of [trustedRaw] stands verbatim, each between the
    serializations of the items before and after it. Under the initial,
    permissive policy [raw] returns what [trustedRaw] returns. The pretty
    renderer writes the same open tag, prints the content of [trustedRaw] line
    by line as it is, and prints a string child escaped exactly once, on the
    line of its element or on a line of its own; but in an element of a raw
    block tag ([script], [style], [pre], [textarea]) it prints a string child
    line by line as it is, not escaped. *)
Theorem plain_strings_escaped_once_raw_verbatim :
  forall (tag : string) (at_ : option Attrs) (kids : list Child) (r : RawHtml),
    el tag at_ kids = Ok r ->
    (forall (a : Attrs) (k : string) (v : AttrValue),
        at_ = Some a -> isAttrs a = true -> NoDup (objectKeys a) ->
        In (k, v) a -> isTextValue v = true ->
        elArgs tag (Some (ArgObject a, kids)) = Some (Ok r)
        /\ exists before after rest rest',
            sortKeys (objectKeys a) = (before ++ k :: after)%list
            /\ __rawHtml r
               = "<" ++ tag ++ tokensOfKeys a before
                 ++ " " ++ k ++ "=" ++ dq ++ escapeOnce (toStr v) ++ dq
                 ++ tokensOfKeys a after ++ ">" ++ rest
            /\ renderPretty [PRawHtml r]
               = "<" ++ tag ++ tokensOfKeys a before
                 ++ " " ++ k ++ "=" ++ dq ++ escapeOnce (toStr v) ++ dq
                 ++ tokensOfKeys a after ++ ">" ++ rest')
    /\ (isVoidElement tag = false ->
        forall fb fa s,
          flattenChildren kids = (fb ++ FString s :: fa)%list ->
          exists nb na,
            mapResult childToAst fb = Ok nb /\ mapResult childToAst fa = Ok na
            /\ __rawHtml r = "<" ++ tag ++ attrTokensOf at_ ++ ">" ++ inner nb
                             ++ escapeOnce s ++ inner na ++ "</" ++ tag ++ ">"
            /\ renderPretty [PRawHtml r]
               = if isRawBlockTag tag then
                   prettyBlock tag at_
                     (app (flat_map (kidLines tag) nb)
                        (app (verbatimLines s) (flat_map (kidLines tag) na)))
                 else if onlyChildOnLine fb fa s then
                   "<" ++ tag ++ attrTokensOf at_ ++ ">" ++ escapeOnce s
                   ++ "</" ++ tag ++ ">" ++ nl
                 else
                   prettyBlock tag at_
                     (app (flat_map (kidLines tag) nb)
                        (app [indentUnit ++ escapeOnce s]
                           (flat_map (kidLines tag) na))))
    /\ (isVoidElement tag = false ->
        forall fb fa html hint,
          flattenChildren kids = (fb ++ FRawHtml (trustedRaw html hint) :: fa)%list ->
          exists nb na,
            mapResult childToAst fb = Ok nb /\ mapResult childToAst fa = Ok na
            /\ __rawHtml r = "<" ++ tag ++ attrTokensOf at_ ++ ">" ++ inner nb
                             ++ html ++ inner na ++ "</" ++ tag ++ ">"
            /\ renderPretty [PRawHtml r]
               = prettyBlock tag at_
                   (app (flat_map (kidLines tag) nb)
                      (app (verbatimLines html) (flat_map (kidLines tag) na))))
    /\ (forall html hint, raw initialRawPolicy html hint = Ok (trustedRaw html hint)).
Proof.
  intros tag at_ kids r E. split; [|split; [|split]].
  - intros a k v -> A N I T. split.
    { rewrite (elArgs_attrs tag a kids A). exact (f_equal Some E). }
    destruct (sortedAttrTokens_at a k v N I) as (before & after & S & Tk).
    rewrite (attrToken_text k v T) in Tk.
    assert (exists rest, __rawHtml r = "<" ++ tag ++ sortedAttrTokens a ++ ">" ++ rest)
      as [rest R].
    { destruct (isVoidElement tag) eqn:V.
      - rewrite (el_void _ _ _ V) in E. inversion E. now exists EmptyString.
      - rewrite (el_non_void _ _ _ V) in E.
        destruct (childrenToAst kids) as [nodes|e]; cbn [bind] in E; [|discriminate].
        inversion E. now eexists. }
    destruct (renderPretty_open_tag _ _ _ _ E) as [rest' P]. cbn [attrTokensOf] in P.
    exists before, after, rest, rest'. split; [exact S|].
    rewrite R, P, Tk.
    split; repeat (progress (rewrite ?append_assoc; cbn [append])); reflexivity.
  - intros V fb fa s F.
    destruct (el_non_void_nodes tag at_ kids r fb fa _ (Text s) V E F eq_refl)
      as (nb & na & Eb & Ea & ->).
    exists nb, na. split; [exact Eb|]. split; [exact Ea|]. split.
    + cbn [__rawHtml]. unfold inner. rewrite map_app, join_empty_app. cbn [map].
      rewrite join_empty_cons. cbn [renderAstMinimized].
      now rewrite escapeHtml_once, !append_assoc.
    + destruct (isRawBlockTag tag) eqn:B.
      * rewrite renderPretty_block; [|now rewrite B].
        now rewrite kidLines_text, B.
      * destruct (onlyChildOnLine fb fa s) eqn:O.
        -- unfold onlyChildOnLine in O.
           destruct fb; [|discriminate]. destruct fa; [|discriminate].
           apply mapResult_nil_inv in Eb, Ea. subst nb na.
           rewrite renderPretty_single. cbn [astOf __ast app emit isTrue].
           pose proof (shouldInline_at [] [] (Text s)) as SI. cbn [app] in SI.
           rewrite B. cbn [negb andb]. rewrite SI, O.
           unfold push. cbn [onlyText app repeat]. rewrite openTag_attrsAst.
           unfold closeTag. rewrite escapeHtml_once.
           rewrite join_lines_cons.
           repeat (progress (rewrite ?append_assoc; cbn [append])).
           now rewrite append_nil_r.
        -- rewrite renderPretty_block.
           ++ now rewrite kidLines_text, B.
           ++ rewrite B, shouldInline_at. cbn [negb andb].
              unfold onlyChildOnLine in O.
              destruct fb as [|x fb].
              ** apply mapResult_nil_inv in Eb. subst nb.
                 destruct fa as [|y fa].
                 --- apply mapResult_nil_inv in Ea. subst na. exact O.
                 --- apply mapResult_cons_inv in Ea.
                     destruct Ea as (y' & na' & ->). reflexivity.
              ** apply mapResult_cons_inv in Eb.
                 destruct Eb as (x' & nb' & ->). reflexivity.
  - intros V fb fa html hint F.
    destruct (el_non_void_nodes tag at_ kids r fb fa _ (Raw html) V E F eq_refl)
      as (nb & na & Eb & Ea & ->).
    exists nb, na. split; [exact Eb|]. split; [exact Ea|]. split.
    + cbn [__rawHtml]. unfold inner. rewrite map_app, join_empty_app. cbn [map].
      rewrite join_empty_cons. cbn [renderAstMinimized].
      now rewrite !append_assoc.
    + rewrite renderPretty_block.
      * now rewrite kidLines_raw.
      * rewrite shouldInline_at.
        destruct nb, na; now rewrite Bool.andb_false_r.
  - reflexivity.
Qed.

End EscapingInTheRenderers.

(** C4, at [pre("<b>")]: the minimized string holds the text escaped, and
    the pretty renderer prints it as it is. *)
Lemma pre_text_is_printed_unescaped :
  el "pre" None [CString "<b>"]
  = Ok (mkRawHtml "<pre>&lt;b&gt;</pre>"
          (Some (Element "pre" None (Some [Text "<b>"]) None)))
  /\ renderPretty
       [PRawHtml (mkRawHtml "<pre>&lt;b&gt;</pre>"
                    (Some (Element "pre" None (Some [Text "<b>"]) None)))]
     = "<pre>" ++ nl ++ "  <b>" ++ nl ++ "</pre>" ++ nl.
Proof. split; reflexivity. Qed.

(** [input({ value })], a void tag with an attribute to escape; [div] around
    a script text; and [div] around [raw] of a bold element. *)
Lemma plain_strings_escaped_once_witness :
  (exists r,
      el "input" (Some [("value", VString "<x>")]) [] = Ok r
      /\ __rawHtml r = "<input value=" ++ quoted "&lt;x&gt;" ++ ">"
      /\ elArgs "input" (Some (ArgObject [("value", VString "<x>")], []))
         = Some (Ok r))
  /\ (exists r,
         el "div" None [CArray [CString "<script>alert(1)</script>"]] = Ok r
         /\ __rawHtml r = "<div>&lt;script&gt;alert(1)&lt;/script&gt;</div>"
         /\ renderPretty [PRawHtml r]
            = "<div>&lt;script&gt;alert(1)&lt;/script&gt;</div>" ++ nl)
  /\ (exists r,
         (r0 <- raw initialRawPolicy "<b>ok</b>" None ;;
          el "div" None [CRawHtml r0]) = Ok r
         /\ __rawHtml r = "<div><b>ok</b></div>").
Proof.
  split; [|split].
  - eexists. split; [reflexivity|]. split; [reflexivity|].
    apply (proj1 (plain_strings_escaped_once_raw_verbatim "input"
                    (Some [("value", VString "<x>")]) [] _ eq_refl)
             [("value", VString "<x>")] "value" (VString "<x>") eq_refl eq_refl).
    + repeat constructor. intros [].
    + now left.
    + reflexivity.
  - eexists. split; [reflexivity|]. split; [reflexivity|].
    destruct (proj1 (proj2 (plain_strings_escaped_once_raw_verbatim "div" None
                              [CArray [CString "<script>alert(1)</script>"]] _
                              eq_refl))
                eq_refl [] [] "<script>alert(1)</script>" eq_refl)
      as (nb & na & Eb & Ea & _ & P).
    rewrite P. reflexivity.
  - eexists. split; reflexivity.
Defined.

(** [scriptJs] with an attribute, and with an object that holds
    [nodeType]. *)
Lemma scriptJs_and_styleCss_witness :
  isAttrs (orEmpty (Some [("type", VString "module")])) = true
  /\ (exists r,
         scriptJs "if (a < b) go();" (Some [("type", VString "module")]) = Some (Ok r)
         /\ __rawHtml r
            = "<script type=" ++ quoted "module" ++ ">if (a < b) go();</script>")
  /\ scriptJs "x" (Some [("nodeType", VNumber (int 1))])
     = Some (Throw (Error "Fluent server error: DomNodeLike not supported here.")).
Proof.
  split; [reflexivity|]. split.
  - destruct (proj1 (proj1 (scriptJs_and_styleCss_hold_the_code_verbatim
                              "if (a < b) go();" (Some [("type", VString "module")]))
                       eq_refl)) as (r & E & R & _).
    exists r. split; [exact E|]. rewrite R. reflexivity.
  - apply (proj2 (proj2 (scriptJs_and_styleCss_hold_the_code_verbatim "x"
                           (Some [("nodeType", VNumber (int 1))]))) (int 1));
      reflexivity.
Defined.

(** A paragraph of one line, a void element and an element without
    children. *)
Lemma pretty_of_a_leaf_witness :
  (isRawBlockTag "p" = false
   /\ flattenChildren [CString "Hello < world"] = [FString "Hello < world"]
   /\ includes "010"%char "Hello < world" = false
   /\ (String.length (trim "Hello < world") <=? 80)%nat = true)
  /\ exists r,
      el "p" None [CString "Hello < world"] = Ok r
      /\ __rawHtml r = "<p>Hello &lt; world</p>"
      /\ renderPretty [PRawHtml r] = __rawHtml r ++ nl.
Proof.
  split; [repeat split|].
  eexists. split; [reflexivity|]. split; [reflexivity|].
  apply (pretty_of_a_leaf_is_the_minimized_line "p" None [CString "Hello < world"] _
           eq_refl).
  right. right. split; [reflexivity|].
  exists "Hello < world". repeat split.
Defined.

(** A style element around a selector with [>]. *)
Lemma raw_block_text_witness :
  isRawBlockTag "style" = true
  /\ exists r,
      el "style" None [CString "a > b {}"] = Ok r
      /\ __rawHtml r = "<style>a &gt; b {}</style>"
      /\ renderPretty [PRawHtml r]
         = "<style>" ++ nl ++ "  a > b {}" ++ nl ++ "</style>" ++ nl.
Proof.
  split; [reflexivity|].
  destruct (proj1 (raw_block_text_is_printed_verbatim "style" None "a > b {}"
                     eq_refl)) as (r & E & R & P).
  exists r. split; [exact E|]. split; [rewrite R | rewrite P]; reflexivity.
Defined.

(** ** The region of the starter design system *)

Section StarterRegionProperties.
Context `{JsNumber}.

Lemma tag_on_raw_children (name : string) (at_ : option Attrs) (rs : list RawHtml) :
  isVoidElement name = false ->
  Forall consistent rs ->
  exists r,
    tag name at_ (map CRawHtml rs) = Ok r
    /\ consistent r
    /\ __rawHtml r = "<" ++ name ++ attrTokensOf at_ ++ ">"
                     ++ join EmptyString (map __rawHtml rs) ++ "</" ++ name ++ ">".
Proof.
  intros V C. destruct (el_on_raw_children name at_ rs V) as (r & E & _ & _ & R).
  exists r. split; [exact E|]. split; [|now apply R].
  now apply (proj1 consistent_values name at_ (map CRawHtml rs)).
Qed.

(** X16. The render function of the region [Main] of the starter design
    system, on a title and a content builder that return consistent values:
    without a [lead] builder the [main] element holds the heading and the
    content section and no lead wrapper at all; with one, the wrapper [div]
    with the lead stands between them. *)
Theorem starter_region_lead_is_optional :
  forall (ctx : RenderCtx) (s : ResolvedSlots) (t c : SlotBuilder)
         (rt rc : RawHtml),
    s "title" = Some t -> t ctx = Ok rt -> consistent rt ->
    s "content" = Some c -> c ctx = Ok rc -> consistent rc ->
    (s "lead" = None ->
     exists r,
       regionRender starterMainRegion ctx s = Ok r
       /\ __rawHtml r
          = "<main"
            ++ attrTokensOf
                 (Some [("class", VString (cls ctx "main"));
                        ("id", VString (elemIdValue (naming ctx) "main" "region"))])
            ++ "><h1>" ++ __rawHtml rt ++ "</h1><section"
            ++ attrTokensOf (Some [("class", VString (cls ctx "content"))])
            ++ ">" ++ __rawHtml rc ++ "</section></main>")
    /\ (forall l rl,
           s "lead" = Some l -> l ctx = Ok rl -> consistent rl ->
           exists r,
             regionRender starterMainRegion ctx s = Ok r
             /\ __rawHtml r
                = "<main"
                  ++ attrTokensOf
                       (Some [("class", VString (cls ctx "main"));
                              ("id", VString (elemIdValue (naming ctx) "main" "region"))])
                  ++ "><h1>" ++ __rawHtml rt ++ "</h1><div"
                  ++ attrTokensOf (Some [("class", VString (cls ctx "lead"))])
                  ++ ">" ++ __rawHtml rl ++ "</div><section"
                  ++ attrTokensOf (Some [("class", VString (cls ctx "content"))])
                  ++ ">" ++ __rawHtml rc ++ "</section></main>").
Proof.
  intros ctx s t c rt rc St Et Ct Sc Ec Cc.
  destruct (tag_on_raw_children "h1" None [rt] eq_refl) as (h1 & Eh & Ch & Rh);
    [repeat constructor; exact Ct|].
  destruct (tag_on_raw_children "section"
              (Some [("class", VString (cls ctx "content"))]) [rc] eq_refl)
    as (sec & Es & Cs & Rs); [repeat constructor; exact Cc|].
  cbn [map] in Eh, Es.
  split.
  - intros Sl.
    destruct (tag_on_raw_children "main"
                (Some [("class", VString (cls ctx "main"));
                       ("id", VString (elemIdValue (naming ctx) "main" "region"))])
                [h1; sec] eq_refl) as (r & Er & _ & Rr);
      [repeat constructor; assumption|].
    exists r. split.
    + cbn [regionRender starterMainRegion]. unfold callSlot.
      rewrite St, Et, Sl, Sc, Ec. cbn [bind]. rewrite Eh. cbn [bind].
      rewrite Es. cbn [bind]. rewrite <- Er.
      unfold tag. now apply el_flatten_ext.
    + rewrite Rr. cbn [map]. rewrite Rh, Rs. cbn [map join String.concat attrTokensOf].
      repeat (progress (rewrite ?append_assoc; cbn [append])). reflexivity.
  - intros l rl Sl El Cl.
    destruct (tag_on_raw_children "div"
                (Some [("class", VString (cls ctx "lead"))]) [rl] eq_refl)
      as (d & Ed & Cd & Rd); [repeat constructor; exact Cl|].
    cbn [map] in Ed.
    destruct (tag_on_raw_children "main"
                (Some [("class", VString (cls ctx "main"));
                       ("id", VString (elemIdValue (naming ctx) "main" "region"))])
                [h1; d; sec] eq_refl) as (r & Er & _ & Rr);
      [repeat constructor; assumption|].
    exists r. split.
    + cbn [regionRender starterMainRegion]. unfold callSlot.
      rewrite St, Et, Sl, Sc, Ec, El. cbn [bind]. rewrite Eh. cbn [bind].
      rewrite Ed. cbn [bind]. rewrite Es. cbn [bind]. exact Er.
    + rewrite Rr. cbn [map]. rewrite Rh, Rd, Rs.
      cbn [map join String.concat attrTokensOf].
      repeat (progress (rewrite ?append_assoc; cbn [append])). reflexivity.
Qed.

Lemma setProp_new (m : SlotMap) (k : string) (v : SlotValue) :
  ~ In k (map fst m) -> setProp m k v = (m ++ [(k, v)])%list.
Proof.
  induction m as [|[k0 v0] m IH]; intros N; [reflexivity|].
  cbn [setProp fst]. destruct (String.eqb_spec k0 k) as [->|Hne].
  - exfalso. apply N. now left.
  - cbn [app]. f_equal. apply IH. intros I. apply N. now right.
Qed.

Lemma optionalSlots_from (slots : list (string * option SlotBuilder)) (out : SlotMap) :
  NoDup (map fst out ++ map fst slots) ->
  fold_left
    (fun out kv =>
       match snd kv with
       | Some value => setProp out (fst kv) (SlotFn value)
       | None => out
       end)
    slots out
  = (out ++ flat_map (fun kv : string * option SlotBuilder =>
                        match snd kv with
                        | Some value => [(fst kv, SlotFn value)]
                        | None => []
                        end) slots)%list.
Proof.
  revert out. induction slots as [|[k [b|]] slots IH]; intros out N;
    cbn [fold_left flat_map fst snd].
  - now rewrite app_nil_r.
  - rewrite setProp_new.
    + rewrite IH; [now rewrite <- app_assoc|].
      rewrite map_app. cbn [map fst]. rewrite <- app_assoc. exact N.
    + intros I. apply NoDup_remove_2 in N. apply N.
      apply in_or_app. now left.
  - apply IH. cbn [map fst] in N. now apply NoDup_remove_1 in N.
Qed.

(** X17. [optionalSlots] of a record with distinct keys keeps, in the order
    of the record, exactly the keys that hold a builder, each with its
    builder: a key that holds [undefined] is left out of the slot map, and
    every name of the slot map is a callable builder. *)
Theorem optionalSlots_keeps_the_defined_builders :
  forall (slots : list (string * option SlotBuilder)),
    NoDup (map fst slots) ->
    optionalSlots slots
    = flat_map (fun kv : string * option SlotBuilder =>
                  match snd kv with
                  | Some value => [(fst kv, SlotFn value)]
                  | None => []
                  end) slots
    /\ (forall k v,
           In (k, v) (optionalSlots slots)
           <-> exists b, v = SlotFn b /\ In (k, Some b) slots).
Proof.
  intros slots N.
  assert (optionalSlots slots
          = flat_map (fun kv : string * option SlotBuilder =>
                        match snd kv with
                        | Some value => [(fst kv, SlotFn value)]
                        | None => []
                        end) slots) as E.
  { unfold optionalSlots. now rewrite optionalSlots_from. }
  split; [exact E|].
  intros k v. rewrite E, in_flat_map. split.
  - intros ([k0 [b|]] & I & Iv); cbn [fst snd] in Iv; [|contradiction].
    destruct Iv as [Eq|[]]. inversion Eq; subst. now exists b.
  - intros (b & -> & I). exists (k, Some b). split; [exact I | now left].
Qed.

End StarterRegionProperties.

(** The region without a lead, in the context of a region of the starter
    design system. *)
Lemma starter_region_lead_is_optional_witness :
  consistent (trustedRaw "Starter DS" None)
  /\ exists r,
      regionRender starterMainRegion (ctxFor starterNaming "region")
        (resolve [("title", textSlot "Starter DS"); ("content", textSlot "Hi")])
      = Ok r
      /\ __rawHtml r
         = "<main class=" ++ quoted "region-main" ++ " id=" ++ quoted "region-main"
           ++ "><h1>Starter DS</h1><section class=" ++ quoted "region-content"
           ++ ">Hi</section></main>".
Proof.
  split; [reflexivity|].
  destruct (proj1 (starter_region_lead_is_optional
                     (ctxFor starterNaming "region")
                     (resolve [("title", textSlot "Starter DS");
                               ("content", textSlot "Hi")])
                     (fun _ => Ok (trustedRaw "Starter DS" None))
                     (fun _ => Ok (trustedRaw "Hi" None))
                     (trustedRaw "Starter DS" None) (trustedRaw "Hi" None)
                     eq_refl eq_refl eq_refl eq_refl eq_refl eq_refl) eq_refl)
    as (r & E & R).
  exists r. split; [exact E|]. rewrite R. reflexivity.
Defined.

(** A record with one builder and one [undefined]. *)
Lemma optionalSlots_witness :
  NoDup (map fst [("left", Some (headElement "span" "L")); ("right", None)])
  /\ optionalSlots [("left", Some (headElement "span" "L")); ("right", None)]
     = [("left", SlotFn (headElement "span" "L"))].
Proof.
  assert (NoDup (map fst [("left", Some (headElement "span" "L"));
                          ("right", @None SlotBuilder)])) as N.
  { repeat constructor; simpl; intuition discriminate. }
  split; [exact N|].
  exact (proj1 (optionalSlots_keeps_the_defined_builders _ N)).
Defined.

(** ** trustedRawFriendly *)

Lemma replaceAll_crlf_without_cr (s : string) :
  includes "013"%char s = false -> replaceAll (cr ++ nl) nl s = s.
Proof.
  unfold replaceAll. cbn [cr nl append].
  induction s as [|a s IH]; intros I; [reflexivity|].
  cbn [includes] in I. apply orb_false_elim in I. destruct I as [Ia Is].
  cbn [replaceFrom startsWith]. rewrite Ascii.eqb_sym, Ia. cbn [andb].
  now rewrite (IH Is).
Qed.

Lemma split_line (l : string) :
  includes "010"%char l = false -> split "010"%char l = [l].
Proof.
  induction l as [|a l IH]; intros I; [reflexivity|].
  cbn [includes] in I. apply orb_false_elim in I. destruct I as [Ia Il].
  cbn [split]. now rewrite Ia, (IH Il).
Qed.

Lemma split_line_then (l rest : string) :
  includes "010"%char l = false ->
  split "010"%char (l ++ nl ++ rest) = l :: split "010"%char rest.
Proof.
  induction l as [|a l IH]; intros I.
  - reflexivity.
  - cbn [includes] in I. apply orb_false_elim in I. destruct I as [Ia Il].
    cbn [append split]. rewrite Ia. cbn [append] in IH. now rewrite (IH Il).
Qed.

Lemma join_cons_cons (sep x y : string) (l : list string) :
  join sep (x :: y :: l) = x ++ sep ++ join sep (y :: l).
Proof. reflexivity. Qed.

(** Splitting the lines that were joined gives the lines back. *)
Lemma split_join_lines (x : string) (ls : list string) :
  Forall (fun l => includes "010"%char l = false) (x :: ls) ->
  split "010"%char (join nl (x :: ls)) = x :: ls.
Proof.
  revert x. induction ls as [|y ls IH]; intros x F.
  - inversion F; subst. now apply split_line.
  - inversion F as [|? ? Hx F']; subst.
    rewrite join_cons_cons, (split_line_then _ _ Hx). now rewrite (IH y F').
Qed.

Lemma includes_join (c : ascii) (ls : list string) :
  includes c nl = false ->
  Forall (fun l => includes c l = false) ls ->
  includes c (join nl ls) = false.
Proof.
  intros Hc F. induction F as [|x ls Hx F IH]; [reflexivity|].
  destruct ls as [|y ls]; [exact Hx|].
  rewrite join_cons_cons, !includes_app, Hx, Hc. exact IH.
Qed.

Lemma trimStart_indent (w l : string) :
  isIndent w = true -> trimStart (w ++ l) = trimStart l.
Proof.
  induction w as [|a w IH]; intros I; [reflexivity|].
  cbn [isIndent] in I. repeat (apply andb_prop in I; destruct I as [I ?]).
  cbn [append trimStart]. rewrite I. now apply IH.
Qed.

Lemma isBlank_indent (w l : string) :
  isIndent w = true -> isBlank (w ++ l) = isBlank l.
Proof. intros I. unfold isBlank, trim. now rewrite (trimStart_indent w l I). Qed.

Lemma popTrailingBlank_indent (w : string) (ls : list string) :
  isIndent w = true ->
  popTrailingBlank (map (fun l => w ++ l) ls)
  = map (fun l => w ++ l) (popTrailingBlank ls).
Proof.
  intros I. induction ls as [|l ls IH]; [reflexivity|].
  cbn [map popTrailingBlank]. rewrite IH, (isBlank_indent w l I).
  destruct (popTrailingBlank ls); [|reflexivity].
  cbn [map]. destruct (isBlank l); reflexivity.
Qed.

Lemma leadingWhiteSpace_indent (w l : string) :
  isIndent w = true ->
  leadingWhiteSpace (w ++ l) = String.length w + leadingWhiteSpace l.
Proof.
  induction w as [|a w IH]; intros I; [reflexivity|].
  cbn [isIndent] in I. repeat (apply andb_prop in I; destruct I as [I ?]).
  cbn [append leadingWhiteSpace String.length]. rewrite I.
  cbn [Nat.add]. now rewrite IH.
Qed.

Lemma slice_indent (w l : string) (m : nat) :
  slice (String.length w + m) (w ++ l) = slice m l.
Proof. induction w as [|a w IH]; [reflexivity | exact IH]. Qed.

Lemma slice_zero (l : string) : slice 0 l = l.
Proof. destruct l; reflexivity. Qed.

(** The loop of [minIndent] from a value of [minIndent]. *)
Lemma minIndent_loop_indent (w : string) (ls : list string) (m : option nat) :
  isIndent w = true ->
  fold_left
    (fun m line =>
       if isBlank line then m
       else match m with
            | None => Some (leadingWhiteSpace line)
            | Some k => Some (Nat.min k (leadingWhiteSpace line))
            end)
    (map (fun l => w ++ l) ls) (option_map (Nat.add (String.length w)) m)
  = option_map (Nat.add (String.length w))
      (fold_left
         (fun m line =>
            if isBlank line then m
            else match m with
                 | None => Some (leadingWhiteSpace line)
                 | Some k => Some (Nat.min k (leadingWhiteSpace line))
                 end)
         ls m).
Proof.
  intros I. revert m. induction ls as [|l ls IH]; intros m; [reflexivity|].
  cbn [map fold_left]. rewrite (isBlank_indent w l I).
  destruct (isBlank l); [apply IH|].
  rewrite <- IH. f_equal. rewrite (leadingWhiteSpace_indent w l I).
  destruct m as [k|]; cbn [option_map]; [|reflexivity].
  now rewrite Nat.add_min_distr_l.
Qed.

Lemma minIndentOf_indent (w : string) (ls : list string) :
  isIndent w = true ->
  minIndentOf (map (fun l => w ++ l) ls)
  = option_map (Nat.add (String.length w)) (minIndentOf ls).
Proof. intros I. exact (minIndent_loop_indent w ls None I). Qed.

Lemma minIndent_loop_some (ls : list string) (k : nat) :
  fold_left
    (fun m line =>
       if isBlank line then m
       else match m with
            | None => Some (leadingWhiteSpace line)
            | Some k => Some (Nat.min k (leadingWhiteSpace line))
            end)
    ls (Some k) <> None.
Proof.
  revert k. induction ls as [|l ls IH]; intros k; [discriminate|].
  cbn [fold_left]. destruct (isBlank l); apply IH.
Qed.

Lemma minIndentOf_none (ls : list string) :
  minIndentOf ls = None -> Forall (fun l => isBlank l = true) ls.
Proof.
  unfold minIndentOf. induction ls as [|l ls IH]; intros E; [constructor|].
  cbn [fold_left] in E. destruct (isBlank l) eqn:B.
  - constructor; [exact B | now apply IH].
  - now apply minIndent_loop_some in E.
Qed.

Lemma popTrailingBlank_all_blank (ls : list string) :
  Forall (fun l => isBlank l = true) (popTrailingBlank ls) ->
  popTrailingBlank ls = [].
Proof.
  induction ls as [|l ls IH]; [reflexivity|].
  cbn [popTrailingBlank]. destruct (popTrailingBlank ls) as [|k kept].
  - destruct (isBlank l) eqn:B; [reflexivity|].
    intros F. inversion F; subst. congruence.
  - intros F. inversion F as [|? ? _ F']; subst.
    now specialize (IH F').
Qed.

Lemma isIndent_has_no_line_break (w : string) :
  isIndent w = true ->
  includes "010"%char w = false /\ includes "013"%char w = false.
Proof.
  induction w as [|a w IH]; intros I; [split; reflexivity|].
  cbn [isIndent] in I.
  apply andb_prop in I. destruct I as [I Iw].
  apply andb_prop in I. destruct I as [I Icr].
  apply andb_prop in I. destruct I as [_ Inl].
  apply negb_true_iff in Icr, Inl. destruct (IH Iw) as [W1 W2].
  cbn [includes]. now rewrite Icr, Inl, W1, W2.
Qed.

Section TrustedRawFriendlyProperties.
Context `{JsNumber}.

(** X19. [trustedRawFriendly] (and [javaScript]) on a template without
    expressions, given by its lines: when the first line is not blank the call
    throws; when it is empty the call returns, and what it returns does not
    change when every following line is indented further by the same white
    space: the common indentation of the lines is taken off. *)
Theorem trustedRawFriendly_takes_off_the_common_indentation :
  forall (w : string) (ls : list string),
    isIndent w = true ->
    Forall (fun l => isLine l = true) ls ->
    (exists r, trustedRawFriendly [join nl (EmptyString :: ls)] [] = Ok r)
    /\ trustedRawFriendly [join nl (EmptyString :: map (fun l => w ++ l) ls)] []
       = trustedRawFriendly [join nl (EmptyString :: ls)] []
    /\ (forall first,
           isLine first = true -> isBlank first = false ->
           trustedRawFriendly [join nl (first :: ls)] []
           = Throw (Error "javaScript() template must start with a blank first line")).
Proof.
  intros w ls I F.
  assert (forall first lines,
             isLine first = true ->
             Forall (fun l => isLine l = true) lines ->
             split "010"%char
               (replaceAll (cr ++ nl) nl (templateText [join nl (first :: lines)] []))
             = first :: lines) as S.
  { intros first lines Lf Fl.
    assert (Forall (fun l => isLine l = true) (first :: lines)) as Fa
      by (now constructor).
    cbn [templateText templateRest]. rewrite append_nil_r.
    rewrite replaceAll_crlf_without_cr.
    - apply split_join_lines. eapply Forall_impl; [|exact Fa].
      intros l L. unfold isLine in L. apply andb_prop in L.
      now apply negb_true_iff.
    - apply includes_join; [reflexivity|].
      eapply Forall_impl; [|exact Fa].
      intros l L. unfold isLine in L. apply andb_prop in L.
      now apply negb_true_iff. }
  assert (Forall (fun l => isLine l = true) (map (fun l => w ++ l) ls)) as Fw.
  { apply Forall_forall. intros l' Il. apply in_map_iff in Il.
    destruct Il as (l & <- & Il). rewrite Forall_forall in F.
    specialize (F l Il). unfold isLine in *. rewrite !includes_app.
    apply andb_prop in F. destruct F as [F1 F2].
    apply negb_true_iff in F1, F2. rewrite F1, F2.
    destruct (isIndent_has_no_line_break w I) as [W1 W2].
    now rewrite W1, W2. }
  split; [|split].
  - unfold trustedRawFriendly. rewrite (S EmptyString ls eq_refl F).
    cbn [isBlank trim trimStart trimEnd negb]. now eexists.
  - unfold trustedRawFriendly.
    rewrite (S EmptyString ls eq_refl F), (S EmptyString _ eq_refl Fw).
    cbn [isBlank trim trimStart trimEnd negb].
    rewrite (popTrailingBlank_indent w ls I).
    rewrite (minIndentOf_indent w (popTrailingBlank ls) I).
    destruct (minIndentOf (popTrailingBlank ls)) as [m|] eqn:M; cbn [option_map].
    + do 3 f_equal. rewrite map_map. apply map_ext. intros l.
      destruct (String.length w + m) as [|n] eqn:Z.
      * assert (w = EmptyString) as -> by (destruct w; [reflexivity | discriminate]).
        assert (m = 0) as -> by (cbn in Z; exact Z). reflexivity.
      * cbn [Nat.ltb Nat.leb]. rewrite <- Z, slice_indent.
        destruct m; [now rewrite slice_zero | reflexivity].
    + apply minIndentOf_none, popTrailingBlank_all_blank in M. now rewrite M.
  - intros first Lf B. unfold trustedRawFriendly.
    rewrite (S first ls Lf F), B. reflexivity.
Qed.

End TrustedRawFriendlyProperties.

(** A script of two lines, indented by four and by six spaces, and the same
    script indented by two more. *)
Lemma trustedRawFriendly_witness :
  isIndent "  " = true
  /\ Forall (fun l => isLine l = true) ["    if (x) {"; "      y();"; "    }"; "  "]
  /\ trustedRawFriendly
       [join nl (EmptyString :: ["    if (x) {"; "      y();"; "    }"; "  "])] []
     = Ok (trustedRaw (join nl ["if (x) {"; "  y();"; "}"]) None)
  /\ trustedRawFriendly
       [join nl (EmptyString
                 :: map (fun l => "  " ++ l)
                      ["    if (x) {"; "      y();"; "    }"; "  "])] []
     = trustedRawFriendly
         [join nl (EmptyString :: ["    if (x) {"; "      y();"; "    }"; "  "])] [].
Proof.
  assert (Forall (fun l => isLine l = true)
            ["    if (x) {"; "      y();"; "    }"; "  "]) as F
    by (repeat constructor).
  split; [reflexivity|]. split; [exact F|]. split; [reflexivity|].
  apply (trustedRawFriendly_takes_off_the_common_indentation "  " _ eq_refl F).
Defined.

(** ** More on the head merge, the raw policy and text children *)

Section MoreProperties.
Context `{JsNumber}.

Lemma setProp_keys (m : SlotMap) (k : string) (v : SlotValue) :
  exists extra, map fst (setProp m k v) = (map fst m ++ extra)%list.
Proof.
  induction m as [|[k0 v0] m [extra IH]]; cbn [setProp fst map].
  - now exists [k].
  - destruct (String.eqb k0 k); cbn [map fst].
    + exists []. now rewrite app_nil_r.
    + exists extra. cbn [app]. now rewrite IH.
Qed.

Lemma in_setProp (m : SlotMap) (k k' : string) (v v' : SlotValue) :
  In (k', v') (setProp m k v) -> In (k', v') m \/ (k', v') = (k, v).
Proof.
  induction m as [|[k0 v0] m IH]; cbn [setProp fst].
  - intros [E|[]]. right. now symmetry.
  - destruct (String.eqb_spec k0 k) as [->|Hne]; intros [E|I].
    + right. now symmetry.
    + left. now right.
    + left. now left.
    + destruct (IH I) as [I'|E]; [left; now right | now right].
Qed.

Lemma mergeEntries_keeps (overrides merged : SlotMap) :
  (exists extra,
      map fst (mergeEntries overrides merged) = (map fst merged ++ extra)%list)
  /\ (forall k v,
         In (k, v) (mergeEntries overrides merged) ->
         In (k, v) merged \/ (truthy v = true /\ In (k, v) overrides)).
Proof.
  unfold mergeEntries. revert merged.
  induction overrides as [|[k0 v0] overrides IH]; intros merged.
  - split; [exists []; now rewrite app_nil_r | now left].
  - cbn [fold_left fst snd]. destruct (truthy v0) eqn:T.
    + destruct (IH (setProp merged k0 v0)) as [[extra E] M]. split.
      * destruct (setProp_keys merged k0 v0) as [extra0 E0].
        exists (extra0 ++ extra)%list. now rewrite E, E0, app_assoc.
      * intros k v I. destruct (M k v I) as [I'|[Tv I']].
        -- destruct (in_setProp _ _ _ _ _ I') as [Im|Eq]; [now left|].
           inversion Eq; subst. right. split; [exact T | now left].
        -- right. split; [exact Tv | now right].
    + destruct (IH merged) as [E M]. split; [exact E|].
      intros k v I. destruct (M k v I) as [I'|[Tv I']]; [now left|].
      right. split; [exact Tv | now right].
Qed.

(** X20. The head merge of [naturalDesignSystem] never drops or moves a
    default: the keys of the merged head are the keys of the default head, in
    their order, then new keys; and an entry of the merged head is an entry of
    the default head or an entry of the caller with a truthy value. *)
Theorem mergeHead_keeps_the_defaults :
  forall (HeadSlotInput : Type) (headSlots : HeadSlotInput -> SlotMap)
         (defaultInput : HeadSlotInput) (input : option HeadSlotInput),
    (exists extra,
        map fst (mergeHead headSlots defaultInput input)
        = (map fst (defaultHead headSlots defaultInput) ++ extra)%list)
    /\ (forall k v,
           In (k, v) (mergeHead headSlots defaultInput input) ->
           In (k, v) (defaultHead headSlots defaultInput)
           \/ (truthy v = true
               /\ exists i, input = Some i /\ In (k, v) (headSlots i))).
Proof.
  intros HeadSlotInput headSlots defaultInput [i|].
  - destruct (mergeEntries_keeps (headSlots i) (defaultHead headSlots defaultInput))
      as [E M].
    split; [exact E|]. intros k v I.
    destruct (M k v I) as [I'|[T I']]; [now left|].
    right. split; [exact T|]. now exists i.
  - split; [exists []; now rewrite app_nil_r | now left].
Qed.

(** X21. [raw] throws exactly when the mode of the policy is dev-strict,
    and returns what [trustedRaw] returns otherwise, also when the mode is
    [undefined]; [setRawPolicy] with an object without [mode] leaves the
    policy as it is, and of two calls that give a mode the second decides. *)
Theorem raw_throws_only_under_dev_strict :
  forall (st : RawPolicy) (html : string) (hint : option string),
    (mode st = Some DevStrict <-> exists e, raw st html hint = Throw e)
    /\ (raw st html hint = Ok (trustedRaw html hint)
        \/ exists e, raw st html hint = Throw e /\ isRawPolicyViolation e = true)
    /\ setRawPolicy st NoMode = st
    /\ (forall p m,
           setRawPolicy (setRawPolicy st p) (WithMode m) = mkRawPolicy m)
    /\ raw (setRawPolicy (setRawPolicy st (WithMode (Some DevStrict))) (WithMode None))
         html hint
       = Ok (trustedRaw html hint).
Proof.
  intros st html hint. unfold raw.
  split; [|split; [|split; [|split]]]; try reflexivity.
  - destruct (mode st) as [[|]|]; split; intros E;
      try discriminate; try (destruct E; discriminate); try reflexivity.
    now eexists.
  - destruct (mode st) as [[|]|]; try (now left).
    right. destruct hint as [[|a h]|]; eexists; split; reflexivity.
Qed.

(** X22. Text children are kept apart: a tag that is not void around two
    strings holds two text nodes, and around their concatenation one; the
    minimized strings of the two elements are the same. The pretty renderer,
    for a tag that is not a raw block tag, prints the two texts on lines of
    their own between the tags. *)
Theorem adjacent_texts_are_not_merged :
  forall (tag : string) (at_ : option Attrs) (s1 s2 : string),
    isVoidElement tag = false ->
    exists r r',
      el tag at_ [CString s1; CString s2] = Ok r
      /\ el tag at_ [CString (s1 ++ s2)] = Ok r'
      /\ __ast r = Some (Element tag (attrsAst at_) (Some [Text s1; Text s2]) None)
      /\ __ast r' = Some (Element tag (attrsAst at_) (Some [Text (s1 ++ s2)]) None)
      /\ __rawHtml r = __rawHtml r'
      /\ (isRawBlockTag tag = false ->
          renderPretty [PRawHtml r]
          = join nl
              ["<" ++ tag ++ attrTokensOf at_ ++ ">";
               indentUnit ++ escapeOnce s1;
               indentUnit ++ escapeOnce s2;
               "</" ++ tag ++ ">"]
            ++ nl).
Proof.
  intros tag at_ s1 s2 V. rewrite !(el_non_void _ _ _ V).
  cbn [childrenToAst flattenChildren fold_left visit app mapResult childToAst bind].
  do 2 eexists. split; [reflexivity|]. split; [reflexivity|].
  split; [reflexivity|]. split; [reflexivity|]. split.
  - cbn [__rawHtml]. unfold inner.
    cbn [map renderAstMinimized join String.concat].
    now rewrite escapeHtml_app, !append_assoc.
  - intros B. rewrite renderPretty_single.
    cbn [astOf __ast emit isTrue]. rewrite B.
    cbn [negb andb shouldInlineTextOnly isTrue orEmpty fold_left emit].
    unfold push. cbn [app Nat.add repeat]. rewrite openTag_attrsAst.
    now rewrite !escapeHtml_once, !append_nil_r.
Qed.

End MoreProperties.

(** A paragraph around two strings. *)
Lemma adjacent_texts_witness :
  isVoidElement "p" = false
  /\ exists r,
      el "p" None [CString "a"; CString "b"] = Ok r
      /\ __rawHtml r = "<p>ab</p>"
      /\ renderPretty [PRawHtml r]
         = "<p>" ++ nl ++ "  a" ++ nl ++ "  b" ++ nl ++ "</p>" ++ nl.
Proof.
  split; [reflexivity|].
  destruct (adjacent_texts_are_not_merged "p" None "a" "b" eq_refl)
    as (r & r' & E & _ & _ & _ & _ & P).
  exists r. split; [exact E|]. split.
  - inversion E. reflexivity.
  - rewrite (P eq_refl). reflexivity.
Defined.
